(** * The CCS Jython interpreter bridge (src/python/PythonBinding.py)

    A shallow embedding of the socket bridge to the CCS Jython interpreter:
    the framing of a submission, the listener thread that drains the socket,
    the result handle with its polling accessor, and the client entry points.

    Text.  A Python [str] is a sequence of code points.  The embedding uses
    Rocq's [string], whose characters are the 256 values of [ascii]; they
    stand for the code points U+0000..U+00FF, so the text handled here is the
    Latin-1 part of what the socket can deliver after [decode('utf-8')].
    A [recv] whose bytes do not decode raises, like a failing [recv]; both are
    the [Broken] of a scripted read below.

    Threads.  The peer is scripted: the world lists what the successive reads
    of the socket give.  The listener started by a submission is run against
    that script, pass by pass; [listen_loop] gives where it comes to rest and
    [listen_upto] the thread object after a number of passes.  The main
    thread sees the thread object through [view]: its [k]-th look finds the
    listener [progress k] passes on.  Two listeners reading the one socket at
    the same time are outside the model: a submission made while an earlier
    listener is still reading is not described. *)

From Stdlib Require Import Bool Arith List Ascii String DecimalString Lia.
Import ListNotations.

Local Open Scope string_scope.

(** ** Python string primitives used by the bridge *)

Module Text.

Definition newline : ascii := "010"%char.

(** [needle in hay] *)
Fixpoint contains (needle hay : string) : bool :=
  if prefix needle hay then true
  else match hay with
       | EmptyString => false
       | String _ rest => contains needle rest
       end.

(** [s.split('\n')] *)
Fixpoint split_nl (s : string) : list string :=
  match s with
  | EmptyString => [EmptyString]
  | String c rest =>
      if Ascii.eqb c newline then EmptyString :: split_nl rest
      else match split_nl rest with
           | [] => [String c EmptyString]
           | l :: ls => String c l :: ls
           end
  end.

(** [s.replace("\n", "")] *)
Fixpoint remove_nl (s : string) : string :=
  match s with
  | EmptyString => EmptyString
  | String c rest =>
      if Ascii.eqb c newline then remove_nl rest else String c (remove_nl rest)
  end.

(** [''.join(chunks)] *)
Fixpoint join (chunks : list string) : string :=
  match chunks with
  | [] => EmptyString
  | c :: cs => c ++ join cs
  end.

(** Every character of [s] passes the test [p]. *)
Fixpoint all_chars (p : ascii -> bool) (s : string) : bool :=
  match s with
  | EmptyString => true
  | String c rest => p c && all_chars p rest
  end.

(** Removal of a known prefix, and of a known suffix. *)
Fixpoint strip_prefix (p s : string) : option string :=
  match p with
  | EmptyString => Some s
  | String a p' =>
      match s with
      | EmptyString => None
      | String b s' => if Ascii.eqb a b then strip_prefix p' s' else None
      end
  end.

Fixpoint strip_suffix (suf s : string) : option string :=
  if String.eqb s suf then Some EmptyString
  else match s with
       | EmptyString => None
       | String c s' =>
           match strip_suffix suf s' with
           | Some r => Some (String c r)
           | None => None
           end
       end.

End Text.

(** ** Regular expressions: the fragment of Python's [re] the bridge uses *)

Module Regex.

Inductive regex : Type :=
| Void                      (* matches nothing; arises in derivatives *)
| Eps                       (* the empty pattern *)
| Lit (c : ascii)           (* a literal character *)
| Dot                       (* [.] : any character except a newline *)
| WordCh                    (* [\w] *)
| Cat (r1 r2 : regex)
| Alt (r1 r2 : regex)
| Star (r : regex).

(** [\w] on a [str] pattern: alphanumeric code points and the underscore;
    below U+0100 these are the ASCII letters and digits, [_], and the
    Latin-1 letters and numerics. *)
Definition is_word (c : ascii) : bool :=
  let n := nat_of_ascii c in
  (((48 <=? n) && (n <=? 57)) || ((65 <=? n) && (n <=? 90)) ||
  (n =? 95) || ((97 <=? n) && (n <=? 122)) ||
  (n =? 170) || (n =? 178) || (n =? 179) || (n =? 181) || (n =? 185) ||
  (n =? 186) || ((188 <=? n) && (n <=? 190)) ||
  ((192 <=? n) && (n <=? 214)) || ((216 <=? n) && (n <=? 246)) ||
  ((248 <=? n) && (n <=? 255)))%nat.

Definition is_dot (c : ascii) : bool := negb (Ascii.eqb c Text.newline).

(** A literal word, character by character. *)
Fixpoint lit (s : string) : regex :=
  match s with
  | EmptyString => Eps
  | String c rest => Cat (Lit c) (lit rest)
  end.

Fixpoint nullable (r : regex) : bool :=
  match r with
  | Void => false
  | Eps => true
  | Lit _ => false
  | Dot => false
  | WordCh => false
  | Cat r1 r2 => nullable r1 && nullable r2
  | Alt r1 r2 => nullable r1 || nullable r2
  | Star _ => true
  end.

(** The residual pattern after reading the character [c]. *)
Fixpoint deriv (c : ascii) (r : regex) : regex :=
  match r with
  | Void => Void
  | Eps => Void
  | Lit a => if Ascii.eqb a c then Eps else Void
  | Dot => if is_dot c then Eps else Void
  | WordCh => if is_word c then Eps else Void
  | Cat r1 r2 =>
      if nullable r1 then Alt (Cat (deriv c r1) r2) (deriv c r2)
      else Cat (deriv c r1) r2
  | Alt r1 r2 => Alt (deriv c r1) (deriv c r2)
  | Star r1 => Cat (deriv c r1) (Star r1)
  end.

(** [re_obj.match(s)]: the pattern matches at the start of [s]; the match
    need not reach the end of [s]. *)
Fixpoint re_match (r : regex) (s : string) : bool :=
  if nullable r then true
  else match s with
       | EmptyString => false
       | String c rest => re_match (deriv c r) rest
       end.

(** The strings a pattern denotes. *)
Inductive lang : regex -> string -> Prop :=
| L_eps : lang Eps EmptyString
| L_lit c : lang (Lit c) (String c EmptyString)
| L_dot c : is_dot c = true -> lang Dot (String c EmptyString)
| L_word c : is_word c = true -> lang WordCh (String c EmptyString)
| L_cat r1 r2 s1 s2 : lang r1 s1 -> lang r2 s2 -> lang (Cat r1 r2) (s1 ++ s2)
| L_alt_l r1 r2 s : lang r1 s -> lang (Alt r1 r2) s
| L_alt_r r1 r2 s : lang r2 s -> lang (Alt r1 r2) s
| L_star_nil r : lang (Star r) EmptyString
| L_star_app r s1 s2 :
    lang r s1 -> lang (Star r) s2 -> lang (Star r) (s1 ++ s2).

End Regex.

(** ** The bridge *)

Module Bridge.

Import Text Regex.

(** *** Exceptions, the socket and the process around the bridge *)

Inductive exn : Type :=
| CcsException (value : string)   (* class CcsException *)
| LibraryError (msg : string).    (* anything the socket library or the decoder raises *)

(** What one [socket_connection.recv(1024).decode('utf-8')] gives. *)
Inductive read : Type :=
| Chunk (text : string)
| Broken (msg : string).

(** What reaches [sys.stdout]. *)
Inductive console_item : Type :=
| Written (text : string)         (* sys.stdout.write(text) *)
| Printed (line : string)         (* print(line) *)
| PrintedExn (e : exn).           (* print(eobj) *)

(** The part of the process and of its peer that the bridge touches.
    The remote side is scripted: [incoming] lists what the successive
    reads of the one shared socket will give, in order. *)
Record World : Type := mkWorld {
  hostname : string;              (* socket.gethostname() *)
  unreachable : option string;    (* [Some msg]: opening or connecting the socket raises *)
  dials : nat;                    (* connection attempts made so far *)
  incoming : list read;           (* reads not yet consumed *)
  sent : list string;             (* payloads of the send calls so far *)
  stdout : list console_item;
  uuid_source : nat -> string;    (* the values str(uuid.uuid4()) takes *)
  uuid_count : nat                (* how many have been drawn *)
}.

(** *** class CcsPythonExecutorThread *)

Record Thread : Type := mkThread {
  thread_id : string;
  running : bool;
  execution_output : string;
  java_exceptions : list string
}.

(** [CcsPythonExecutorThread.__init__]; [running] and [execution_output]
    are not yet set there, and are set before they are first read. *)
Definition new_thread (thread_id : string) : Thread :=
  mkThread thread_id false EmptyString [].

(** [re.compile(r'.*java.lang.\w*Exception.*')] *)
Definition re_obj : regex :=
  Cat (Star Dot)
   (Cat (lit "java")
    (Cat Dot
     (Cat (lit "lang")
      (Cat Dot
       (Cat (Star WordCh)
        (Cat (lit "Exception")
         (Star Dot))))))).

(** [for item in items: if re_obj.match(item): java_exceptions.append(item)] *)
Fixpoint scan_items (items : list string) (excs : list string) : list string :=
  match items with
  | [] => excs
  | item :: rest =>
      scan_items rest (if re_match re_obj item then excs ++ [item] else excs)%list
  end.

(** What the scanning of a sequence of chunks, one after the other, leaves
    in the exception list. *)
Definition scan_chunks (chunks : list string) (excs : list string) : list string :=
  fold_left (fun acc output => scan_items (split_nl output) acc) chunks excs.

Definition done_marker (t : Thread) : string := "doneExecution:" ++ thread_id t.

(** The body of the [while] loop of [listenToSocketOutput], after a read
    that gave [output]. *)
Definition listen_body (t : Thread) (output : string)
    (console : list console_item) : Thread * list console_item :=
  let excs := scan_items (split_nl output) (java_exceptions t) in
  if negb (contains (done_marker t) output) then
    (mkThread (thread_id t) (running t) (execution_output t ++ output) excs,
     (console ++ [Written output])%list)
  else
    (mkThread (thread_id t) false (execution_output t) excs, console).

(** How the thread's target function ends. *)
Inductive ending : Type :=
| Returned                  (* the loop was left and the function returned *)
| Raised (e : exn)          (* an exception left the function *)
| Blocked.                  (* the script is exhausted: recv never returns *)

Record Run : Type := mkRun {
  end_of : ending;
  final : Thread;
  unread : list read;
  console_of : list console_item
}.

(** [while self.running: ...] *)
Fixpoint listen_loop (t : Thread) (incoming : list read)
    (console : list console_item) : Run :=
  if running t then
    match incoming with
    | [] => mkRun Blocked t [] console
    | Broken msg :: rest =>
        mkRun (Raised (CcsException "Communication Problem with Socket"))
              t rest (console ++ [PrintedExn (LibraryError msg)])%list
    | Chunk output :: rest =>
        let (t', console') := listen_body t output console in
        listen_loop t' rest console'
    end
  else mkRun Returned t incoming console.

(** [listenToSocketOutput] *)
Definition listenToSocketOutput (t : Thread) (incoming : list read)
    (console : list console_item) : Run :=
  listen_loop
    (mkThread (thread_id t) (running t) EmptyString (java_exceptions t))
    incoming console.

(** The thread object as it is once the loop has gone through at most [n]
    reads: what another thread sees when it looks at that moment. *)
Fixpoint listen_upto (n : nat) (t : Thread) (incoming : list read) : Thread :=
  match n with
  | 0 => t
  | S n' =>
      if running t then
        match incoming with
        | Chunk output :: rest => listen_upto n' (fst (listen_body t output [])) rest
        | _ => t
        end
      else t
  end.

(** The values [running] takes, one per completed pass of the loop. *)
Fixpoint running_history (t : Thread) (incoming : list read) : list bool :=
  if running t then
    match incoming with
    | Chunk output :: rest =>
        let t' := fst (listen_body t output []) in
        running t' :: running_history t' rest
    | _ => []
    end
  else [].

(** *** class CcsExecutionResult *)

(** The result object holds the thread object.  The thread object changes
    while the listener runs; it is given here by its state when the
    listener started and by the reads the listener will make. *)
Record CcsExecutionResult : Type := mkResult {
  thread_start : Thread;
  feed : list read
}.

(** The thread object after [n] passes of the listener. *)
Definition thread_after (result : CcsExecutionResult) (n : nat) : Thread :=
  listen_upto n
    (mkThread (thread_id (thread_start result)) (running (thread_start result))
              EmptyString (java_exceptions (thread_start result)))
    (feed result).

(** The thread object once the listener has come to rest. *)
Definition thread (result : CcsExecutionResult) : Thread :=
  final (listenToSocketOutput (thread_start result) (feed result) []).

(** [getOutput]: [view k] is the thread object at the caller's [k]-th look
    at it, counted from the start of the listener; [now] is the look the
    call starts with, and each [time.sleep(0.1)] moves to the next one.
    [fuel] bounds the looks: [None] says the call has not returned within
    them.  A result [(k, out)] says the call returned [out] at look [k]. *)
Fixpoint getOutput (view : nat -> Thread) (fuel now : nat)
    : option (nat * string) :=
  match fuel with
  | 0 => None
  | S fuel' =>
      if running (view now) then getOutput view fuel' (S now)
      else Some (now, execution_output (view now))
  end.

(** *** class CcsJythonInterpreter *)

(** The interpreter object; its [socket_connection] is the one socket of
    the [World]. *)
Record CcsJythonInterpreter : Type := mkInterpreter {
  port : nat;
  host : string
}.

(** How a call made by the main thread ends. *)
Inductive outcome (A : Type) : Type :=
| Ok (a : A) (w : World)        (* returned [a] *)
| Fail (e : exn) (w : World)    (* raised [e] *)
| Pending.                      (* has not returned *)

Arguments Ok {A} a w.
Arguments Fail {A} e w.
Arguments Pending {A}.

Definition nl : string := String newline EmptyString.

(** [str(n)] for a non-negative [int] *)
Definition decimal (n : nat) : string := NilEmpty.string_of_uint (Nat.to_uint n).

Definition with_stdout (w : World) (out : list console_item) : World :=
  mkWorld (hostname w) (unreachable w) (dials w) (incoming w) (sent w) out
          (uuid_source w) (uuid_count w).

Definition with_incoming (w : World) (inc : list read) : World :=
  mkWorld (hostname w) (unreachable w) (dials w) inc (sent w) (stdout w)
          (uuid_source w) (uuid_count w).

Definition with_sent (w : World) (s : list string) : World :=
  mkWorld (hostname w) (unreachable w) (dials w) (incoming w) s (stdout w)
          (uuid_source w) (uuid_count w).

Definition dialled (w : World) : World :=
  mkWorld (hostname w) (unreachable w) (S (dials w)) (incoming w) (sent w)
          (stdout w) (uuid_source w) (uuid_count w).

(** [str(uuid.uuid4())] *)
Definition uuid4 (w : World) : string * World :=
  (uuid_source w (uuid_count w),
   mkWorld (hostname w) (unreachable w) (dials w) (incoming w) (sent w)
           (stdout w) (uuid_source w) (S (uuid_count w))).

Definition print (item : console_item) (w : World) : World :=
  with_stdout w (stdout w ++ [item])%list.

(** [_socket_connection] *)
Definition _socket_connection (w : World) : outcome unit :=
  let w := dialled w in
  match unreachable w with
  | Some msg => Fail (LibraryError msg) w
  | None =>
      match incoming w with
      | [] => Pending
      | Broken msg :: rest => Fail (LibraryError msg) (with_incoming w rest)
      | Chunk connectionResult :: rest =>
          if contains "ConnectionRefused" connectionResult
          then Fail (CcsException "Connection Refused") (with_incoming w rest)
          else Ok tt (with_incoming w rest)
      end
  end.

(** [executePythonContent], in the runs in which the start of the thread
    and the send succeed; [Scripts.executePythonContent_sending] gives the
    send its two outcomes. *)
Definition executePythonContent (t : Thread) (content : string) (w : World)
    : CcsExecutionResult * World :=
  let t := mkThread (thread_id t) true (execution_output t) (java_exceptions t) in
  (* self.output_thread.start() *)
  let run := listenToSocketOutput t (incoming w) (stdout w) in
  let content := "startContent:" ++ thread_id t ++ nl ++
                 content ++ nl ++ "endContent:" ++ thread_id t ++ nl in
  (mkResult t (incoming w),
   with_sent (with_stdout (with_incoming w (unread run)) (console_of run))
             (sent w ++ [content])%list).

(** [sendInterpreterServer] *)
Definition sendInterpreterServer (content : string) (w : World)
    : CcsExecutionResult * World :=
  let (thread_id, w) := uuid4 w in
  let executor_thread := new_thread thread_id in
  executePythonContent executor_thread content w.

(** [aSyncExecution] *)
Definition aSyncExecution (statement : string) (w : World)
    : CcsExecutionResult * World :=
  sendInterpreterServer statement w.

Section Scheduling.

(** [progress k]: the passes the listener has completed when the main
    thread looks at the thread object for the [k]-th time.
    [patience]: the looks the main thread is followed for. *)
Variable progress : nat -> nat.
Variable patience : nat.

Definition view (result : CcsExecutionResult) (k : nat) : Thread :=
  thread_after result (progress k).

(** [syncExecution] *)
Definition syncExecution (statement : string) (w : World)
    : outcome CcsExecutionResult :=
  let (result, w) := sendInterpreterServer statement w in
  (* Calling .getOutput() here causes the object to wait for the
     underlying thread to stop running. *)
  match getOutput (view result) patience 0 with
  | Some _ => Ok result w
  | None => Pending
  end.

(** [CcsJythonInterpreter.__init__] *)
Definition init (name : option string) (host_arg : option string)
    (port_arg : nat) (w : World) : outcome CcsJythonInterpreter :=
  let self :=
    mkInterpreter port_arg
      (match host_arg with
       | None => hostname w      (* Get local machine name *)
       | Some h => h
       end) in
  let host_and_port := host self ++ ":" ++ decimal (port self) in
  match _socket_connection w with
  | Pending => Pending
  | Fail eobj w =>
      Fail (CcsException ("Could not connect to CCS Python Interpreter " ++
                          "on host:port " ++ host_and_port))
           (print (PrintedExn eobj) w)
  | Ok _ w =>
      let w := print (Printed ("Connected to CCS Python interpreter on host:port " ++
                               host_and_port)) w in
      match name with
      | None => Ok self w
      | Some name =>
          let name := remove_nl name in
          match syncExecution ("initializeInterpreter " ++ name) w with
          | Ok _ w => Ok self w
          | Fail e w => Fail e w
          | Pending => Pending
          end
      end
  end.

(** Follows the spec's words for the synchronous submission:
    [submitAsync] followed by [getOutput()] on the handle it returned. *)
Definition submitSync_spec (code : string) (w : World)
    : outcome CcsExecutionResult :=
  let hw := aSyncExecution code w in
  match getOutput (view (fst hw)) patience 0 with
  | Some _ => Ok (fst hw) (snd hw)
  | None => Pending
  end.

End Scheduling.

(** The frame [executePythonContent] writes for the payload [content] under
    the id [id]. *)
Definition framed (id content : string) : string :=
  "startContent:" ++ id ++ nl ++ content ++ nl ++ "endContent:" ++ id ++ nl.

(** A world with a scripted peer: every id drawn is [uuid], the reads give
    [reads]. *)
Definition scripted (uuid : string) (reads : list read) : World :=
  mkWorld "localhost" None 0 reads [] [] (fun _ => uuid) 0.

(** Modelled from the spec: the mock remote side of the framing round
    trip, which is not part of the repository.  It takes the text strictly
    between the [startContent:<id>] line that opens the submission and the
    [endContent:<id>] line that closes it. *)
Definition decode_submission (id : string) (wire : string) : option string :=
  match strip_prefix ("startContent:" ++ id ++ nl) wire with
  | None => None
  | Some rest => strip_suffix (nl ++ "endContent:" ++ id ++ nl) rest
  end.

End Bridge.

(** ** Script execution (PythonBinding.py, the rest of [CcsJythonInterpreter]) *)

Module Scripts.

Import Text Regex Bridge.

(** What [open(filename, "r")] followed by [fd.read()] gives: the content
    of the file, or the exception [open] raises. *)
Inductive file : Type :=
| Readable (content : string)
| Unreadable (msg : string).

(** [aSyncScriptExecution] *)
Definition aSyncScriptExecution (fs : string -> file) (filename : string)
    (w : World) : outcome CcsExecutionResult :=
  match fs filename with
  | Unreadable msg => Fail (LibraryError msg) w
  | Readable fileContent =>
      let (result, w) := sendInterpreterServer fileContent w in
      Ok result w
  end.

Section Scheduling.

Variable progress : nat -> nat.
Variable patience : nat.

(** [for command in setup_commands: ...] of [syncScriptExecution] *)
Fixpoint run_setup_commands (verbose : bool) (setup_commands : list string)
    (w : World) : outcome unit :=
  match setup_commands with
  | [] => Ok tt w
  | command :: rest =>
      let w := if verbose then print (Printed command) w else w in
      match syncExecution progress patience command w with
      | Ok _ w => run_setup_commands verbose rest w
      | Fail e w => Fail e w
      | Pending => Pending
      end
  end.

(** [syncScriptExecution] *)
Definition syncScriptExecution (fs : string -> file) (filename : string)
    (setup_commands : list string) (verbose : bool) (w : World)
    : outcome CcsExecutionResult :=
  let w :=
    if verbose && negb (match setup_commands with [] => true | _ => false end)
    then print (Printed ("Executing setup commands for " ++ filename)) w
    else w in
  match run_setup_commands verbose setup_commands w with
  | Pending => Pending
  | Fail e w => Fail e w
  | Ok _ w =>
      let w :=
        if verbose then print (Printed ("Executing " ++ filename ++ "...")) w
        else w in
      match fs filename with
      | Unreadable msg => Fail (LibraryError msg) w
      | Readable fileContent =>
          let (result, w) := sendInterpreterServer fileContent w in
          (* Calling .getOutput() here causes the object to wait for the
             underlying thread to stop running. *)
          match getOutput (view progress result) patience 0 with
          | Some _ => Ok result w
          | None => Pending
          end
      end
  end.

End Scheduling.

(** [executePythonContent] with the outcome of [socket_connection.send]:
    [send_error] is [Some msg] when the send raises.  The thread is started
    before the send, so the listener reads whether the send succeeds or not;
    the exception of a failing send leaves the method, which then makes no
    result object.  [content.encode('utf-8')] does not fail on the text
    described here. *)
Definition executePythonContent_sending (send_error : option string)
    (t : Thread) (content : string) (w : World) : outcome CcsExecutionResult :=
  let t := mkThread (thread_id t) true (execution_output t) (java_exceptions t) in
  (* self.output_thread.start() *)
  let run := listenToSocketOutput t (incoming w) (stdout w) in
  let content := "startContent:" ++ thread_id t ++ nl ++
                 content ++ nl ++ "endContent:" ++ thread_id t ++ nl in
  let started := with_stdout (with_incoming w (unread run)) (console_of run) in
  match send_error with
  | Some msg => Fail (LibraryError msg) started
  | None =>
      Ok (mkResult t (incoming w))
         (with_sent started (sent w ++ [content])%list)
  end.

(** [sendInterpreterServer], likewise *)
Definition sendInterpreterServer_sending (send_error : option string)
    (content : string) (w : World) : outcome CcsExecutionResult :=
  let (thread_id, w) := uuid4 w in
  let executor_thread := new_thread thread_id in
  executePythonContent_sending send_error executor_thread content w.

(** [syncExecution], likewise *)
Definition syncExecution_sending (progress : nat -> nat) (patience : nat)
    (send_error : option string) (statement : string) (w : World)
    : outcome CcsExecutionResult :=
  match sendInterpreterServer_sending send_error statement w with
  | Ok result w =>
      match getOutput (view progress result) patience 0 with
      | Some _ => Ok result w
      | None => Pending
      end
  | Fail e w => Fail e w
  | Pending => Pending
  end.

(** The texts written to the console with [sys.stdout.write]. *)
Fixpoint written (console : list console_item) : list string :=
  match console with
  | [] => []
  | Written text :: rest => text :: written rest
  | _ :: rest => written rest
  end.

(** A line the loop has appended: one the pattern matches, cut out of one
    of the chunks of the script. *)
Definition captured_from (incoming : list read) (line : string) : Prop :=
  re_match re_obj line = true /\
  exists chunk, In (Chunk chunk) incoming /\ In line (split_nl chunk).

(** The world with what is on the console forgotten, and an outcome with
    the console of its world forgotten. *)
Definition hush (w : World) : World := with_stdout w [].

Definition hushed {A : Type} (o : outcome A) : outcome A :=
  match o with
  | Ok a w => Ok a (hush w)
  | Fail e w => Fail e (hush w)
  | Pending => Pending
  end.

(** The frames of the submissions [contents], made one after the other
    when [drawn] ids have been drawn already. *)
Fixpoint frames (uuids : nat -> string) (drawn : nat) (contents : list string)
    : list string :=
  match contents with
  | [] => []
  | content :: rest => framed (uuids drawn) content :: frames uuids (S drawn) rest
  end.

End Scripts.

(** ** The setup commands of a script (ccsTools.py, class CcsSetup) *)

Module CcsTools.

Import Text.

Definition quote : ascii := "'"%char.

(** The one-character string that holds a double quote. *)
Definition dquote : string := String (ascii_of_nat 34) EmptyString.

(** An [OrderedDict] with string keys and values, oldest key first. *)
Definition OrderedDict : Type := list (string * string).

(** [OrderedDict.__setitem__]: a key already there keeps its place. *)
Fixpoint od_set (key value : string) (d : OrderedDict) : OrderedDict :=
  match d with
  | [] => [(key, value)]
  | (k, v) :: rest =>
      if String.eqb k key then (k, value) :: rest
      else (k, v) :: od_set key value rest
  end.

(** [OrderedDict.__getitem__]; [None] stands for [KeyError]. *)
Fixpoint od_get (key : string) (d : OrderedDict) : option string :=
  match d with
  | [] => None
  | (k, v) :: rest => if String.eqb k key then Some v else od_get key rest
  end.

(** The part of a [CcsSetup] object its methods work on. *)
Record CcsSetup : Type := mkSetup {
  items : OrderedDict;
  commands : list string;
  sys_paths : list string
}.

(** [CcsSetup.__setitem__], on a value that is a [str]. *)
Definition setitem (key value : string) (self : CcsSetup) : CcsSetup :=
  mkSetup (od_set key (String quote (value ++ String quote EmptyString)) (items self))
          (commands self) (sys_paths self).

(** [CcsSetup.set_item] *)
Definition set_item (key value : string) (self : CcsSetup) : CcsSetup :=
  mkSetup (od_set key value (items self)) (commands self) (sys_paths self).

(** [s.lstrip(c)] and [s.rstrip(c)] for a single character [c] *)
Fixpoint lstrip (c : ascii) (s : string) : string :=
  match s with
  | EmptyString => EmptyString
  | String a rest => if Ascii.eqb a c then lstrip c rest else s
  end.

Fixpoint rstrip (c : ascii) (s : string) : string :=
  match s with
  | EmptyString => EmptyString
  | String a rest =>
      match rstrip c rest with
      | EmptyString => if Ascii.eqb a c then EmptyString else String a EmptyString
      | r => String a r
      end
  end.

(** [s.strip("'")] *)
Definition strip_quotes (s : string) : string := rstrip quote (lstrip quote s).

(** [CcsSetup.set_ccs_subsystems]; [mapping] is what
    [ccs_subsystem_mapping()] returned. *)
Definition set_ccs_subsystems (mapping : option OrderedDict) : list string :=
  match mapping with
  | None => ["subsystems = None"]
  | Some m =>
      "from collections import OrderedDict" ::
      "subsystems = OrderedDict()" ::
      map (fun kv => "subsystems['" ++ fst kv ++ "'] = '" ++ snd kv ++ "'") m
  end.

(** ['sys.path.append("%s")' % item] *)
Definition path_command (item : string) : string :=
  "sys.path.append(" ++ dquote ++ item ++ dquote ++ ")".

(** [CcsSetup.__call__]; [pythonDir] is what [siteUtils.pythonDir()]
    returned.  The list returned is the [commands] attribute itself, which
    the call has changed. *)
Definition call (pythonDir : string) (mapping : option OrderedDict)
    (self : CcsSetup) : list string * CcsSetup :=
  (* Insert path to the modules used by the jython code. *)
  let cmds :=
    fold_left (fun acc item => path_command item :: acc)
              (sys_paths self) (commands self) in
  let cmds := path_command pythonDir :: cmds in
  let cmds := "import sys" :: cmds in
  (* Set the local variables. *)
  let cmds := app cmds (map (fun kv => fst kv ++ " = " ++ snd kv) (items self)) in
  (* Create the CCS subsystems mapping object. *)
  let cmds := (cmds ++ set_ccs_subsystems mapping)%list in
  (cmds, mkSetup (items self) cmds (sys_paths self)).

End CcsTools.

(** * Properties *)

(** ** Text *)

Module TextFacts.

Import Text.

Lemma append_nil_r (s : string) : s ++ "" = s.
Proof. induction s as [|c s IH]; simpl; [reflexivity | now rewrite IH]. Qed.

Lemma append_assoc (a b c : string) : (a ++ b) ++ c = a ++ (b ++ c).
Proof. induction a as [|x a IH]; simpl; [reflexivity | now rewrite IH]. Qed.

Lemma length_append (a b : string) :
  String.length (a ++ b) = String.length a + String.length b.
Proof. induction a as [|x a IH]; simpl; [reflexivity | now rewrite IH]. Qed.

Lemma join_app (xs ys : list string) : join (xs ++ ys)%list = join xs ++ join ys.
Proof.
  induction xs as [|x xs IH]; simpl; [reflexivity|].
  now rewrite IH, append_assoc.
Qed.

Lemma strip_prefix_app (p s : string) : strip_prefix p (p ++ s) = Some s.
Proof.
  induction p as [|a p IH]; simpl; [reflexivity|].
  now rewrite Ascii.eqb_refl.
Qed.

Lemma strip_prefix_sound (p s r : string) : strip_prefix p s = Some r -> s = p ++ r.
Proof.
  revert s; induction p as [|a p IH]; intros s H; simpl in *.
  - now inversion H.
  - destruct s as [|b s]; [discriminate|].
    destruct (Ascii.eqb_spec a b) as [->|]; [|discriminate].
    now rewrite (IH _ H).
Qed.

Lemma strip_suffix_app (suf s : string) : strip_suffix suf (s ++ suf) = Some s.
Proof.
  induction s as [|c s IH].
  - simpl. destruct suf; simpl; now rewrite ?String.eqb_refl, ?Ascii.eqb_refl.
  - cbn [append strip_suffix].
    destruct (String.eqb_spec (String c (s ++ suf)) suf) as [E|_].
    + apply (f_equal String.length) in E. simpl in E.
      rewrite length_append in E. lia.
    + now rewrite IH.
Qed.

Lemma strip_suffix_sound (suf s r : string) :
  strip_suffix suf s = Some r -> s = r ++ suf.
Proof.
  revert r; induction s as [|c s IH]; intros r H.
  - simpl in H. destruct suf; simpl in H; [|discriminate].
    now inversion H.
  - cbn [strip_suffix] in H.
    destruct (String.eqb_spec (String c s) suf) as [E|_].
    + inversion H; subst; reflexivity.
    + destruct (strip_suffix suf s) as [r'|] eqn:E'; [|discriminate].
      inversion H; subst. simpl. now rewrite (IH r' eq_refl).
Qed.

Lemma prefix_app (p s : string) : prefix p (p ++ s) = true.
Proof.
  induction p as [|a p IH]; simpl; [now destruct s|].
  destruct (ascii_dec a a); [assumption | congruence].
Qed.

Lemma prefix_sound (p s : string) : prefix p s = true -> exists r, s = p ++ r.
Proof.
  revert s; induction p as [|a p IH]; intros s H.
  - now exists s.
  - destruct s as [|b s]; simpl in H; [discriminate|].
    destruct (ascii_dec a b) as [->|]; [|discriminate].
    destruct (IH _ H) as [r ->]. now exists r.
Qed.

(** [needle in hay] holds exactly when [hay] is [a + needle + b]. *)
Lemma contains_iff (needle hay : string) :
  contains needle hay = true <-> exists a b, hay = a ++ needle ++ b.
Proof.
  split.
  - induction hay as [|c hay IH]; cbn [contains].
    + destruct (prefix needle "") eqn:P; [|discriminate].
      intros _. destruct (prefix_sound _ _ P) as [r E]. now exists "", r.
    + destruct (prefix needle (String c hay)) eqn:P.
      * intros _. destruct (prefix_sound _ _ P) as [r E]. now exists "", r.
      * intros H. destruct (IH H) as (a & b & ->). now exists (String c a), b.
  - intros (a & b & ->). induction a as [|c a IH].
    + cbn [append]. destruct (needle ++ b) eqn:E; cbn [contains];
        rewrite <- E, prefix_app; reflexivity.
    + cbn [append contains]. rewrite IH.
      now destruct (prefix needle (String c (a ++ needle ++ b))).
Qed.

Lemma contains_app_l (needle a b : string) :
  contains needle a = true -> contains needle (a ++ b) = true.
Proof.
  rewrite !contains_iff. intros (x & y & ->).
  exists x, (y ++ b). now rewrite !append_assoc.
Qed.

Lemma contains_app_r (needle a b : string) :
  contains needle b = true -> contains needle (a ++ b) = true.
Proof.
  rewrite !contains_iff. intros (x & y & ->).
  exists (a ++ x), y. now rewrite !append_assoc.
Qed.

End TextFacts.

(** ** The pattern matcher *)

Module RegexFacts.

Import Text Regex TextFacts.

Lemma append_empty (a b : string) : a ++ b = "" -> a = "" /\ b = "".
Proof. destruct a; simpl; [auto | discriminate]. Qed.

Lemma nullable_lang (r : regex) : nullable r = true -> lang r "".
Proof.
  induction r; simpl; intros H; try discriminate.
  - constructor.
  - apply andb_prop in H as [H1 H2].
    change "" with ("" ++ ""). constructor; auto.
  - apply orb_prop in H as [H|H]; [apply L_alt_l | apply L_alt_r]; auto.
  - constructor.
Qed.

Lemma lang_nullable (r : regex) (s : string) : lang r s -> s = "" -> nullable r = true.
Proof.
  induction 1; intros E; simpl; try discriminate; try reflexivity.
  - apply append_empty in E as [-> ->]. now rewrite IHlang1, IHlang2.
  - now rewrite IHlang.
  - rewrite IHlang by assumption. apply orb_true_r.
Qed.

Lemma deriv_lang (c : ascii) (r : regex) :
  forall s, lang (deriv c r) s -> lang r (String c s).
Proof.
  induction r; intros s H; simpl in H.
  - inversion H.
  - inversion H.
  - destruct (Ascii.eqb_spec c0 c) as [->|]; inversion H; subst. constructor.
  - destruct (is_dot c) eqn:E; inversion H; subst. now constructor.
  - destruct (is_word c) eqn:E; inversion H; subst. now constructor.
  - destruct (nullable r1) eqn:N.
    + inversion H as [| | | | |? ? ? H1|? ? ? H2| |]; subst.
      * inversion H1; subst.
        change (String c (s1 ++ s2)) with (String c s1 ++ s2). constructor; auto.
      * change (String c s) with ("" ++ String c s).
        constructor; [now apply nullable_lang | auto].
    + inversion H; subst.
      change (String c (s1 ++ s2)) with (String c s1 ++ s2). constructor; auto.
  - inversion H; subst; [apply L_alt_l | apply L_alt_r]; auto.
  - inversion H; subst.
    change (String c (s1 ++ s2)) with (String c s1 ++ s2). constructor; auto.
Qed.

Lemma lang_deriv (r : regex) (s0 : string) :
  lang r s0 -> forall c s, s0 = String c s -> lang (deriv c r) s.
Proof.
  induction 1; intros a u E; simpl; try discriminate.
  - inversion E; subst. rewrite Ascii.eqb_refl. constructor.
  - inversion E; subst. rewrite H. constructor.
  - inversion E; subst. rewrite H. constructor.
  - destruct s1 as [|b s1]; simpl in E.
    + rewrite (lang_nullable _ _ H eq_refl). apply L_alt_r. now apply IHlang2.
    + inversion E; subst.
      destruct (nullable r1); [apply L_alt_l|]; constructor; auto.
  - apply L_alt_l. auto.
  - apply L_alt_r. auto.
  - destruct s1 as [|b s1]; simpl in E.
    + now apply IHlang2.
    + inversion E; subst. constructor; auto.
Qed.

(** [re_match] finds a match exactly when a prefix of the string is in the
    language of the pattern. *)
Theorem re_match_iff (s : string) :
  forall r, re_match r s = true <-> exists p q, s = p ++ q /\ lang r p.
Proof.
  induction s as [|c s IH]; intros r; cbn [re_match].
  - destruct (nullable r) eqn:N; split; try discriminate; try reflexivity.
    + intros _. exists "", "". split; [reflexivity | now apply nullable_lang].
    + intros (p & q & E & L). symmetry in E. apply append_empty in E as [-> ->].
      rewrite (lang_nullable _ _ L eq_refl) in N. discriminate.
  - destruct (nullable r) eqn:N.
    + split; [|reflexivity]. intros _.
      exists "", (String c s). split; [reflexivity | now apply nullable_lang].
    + rewrite IH. split.
      * intros (p & q & -> & L). exists (String c p), q.
        split; [reflexivity | now apply deriv_lang].
      * intros (p & q & E & L). destruct p as [|b p].
        -- rewrite (lang_nullable _ _ L eq_refl) in N. discriminate.
        -- simpl in E. inversion E; subst. exists p, q.
           split; [reflexivity | now apply (lang_deriv _ _ L)].
Qed.

Lemma lang_lit (w p : string) : lang (lit w) p <-> p = w.
Proof.
  revert p; induction w as [|c w IH]; intros p; simpl.
  - split; [now inversion 1 | intros ->; constructor].
  - split.
    + inversion 1 as [| | | |? ? ? ? H1 H2| | | |]; subst.
      inversion H1; subst. apply IH in H2. now subst.
    + intros ->. change (String c w) with (String c "" ++ w).
      constructor; [constructor | now apply IH].
Qed.

(** A starred character class denotes the strings over that class. *)
Lemma lang_star_class (r : regex) (p : ascii -> bool) :
  (forall s, lang r s <-> exists c, s = String c "" /\ p c = true) ->
  forall s, lang (Star r) s <-> all_chars p s = true.
Proof.
  intros Hr s. split.
  - remember (Star r) as sr eqn:E. induction 1; try discriminate.
    + reflexivity.
    + inversion E; subst. apply Hr in H as (c & -> & Hc).
      simpl. rewrite Hc. now apply IHlang2.
  - induction s as [|c s IH]; simpl; intros H.
    + constructor.
    + apply andb_prop in H as [Hc Hs].
      change (String c s) with (String c "" ++ s).
      constructor; [apply Hr; eauto | auto].
Qed.

Lemma lang_dot (s : string) : lang Dot s <-> exists c, s = String c "" /\ is_dot c = true.
Proof.
  split; [inversion 1; eauto | intros (c & -> & H); now constructor].
Qed.

Lemma lang_word (s : string) :
  lang WordCh s <-> exists c, s = String c "" /\ is_word c = true.
Proof.
  split; [inversion 1; eauto | intros (c & -> & H); now constructor].
Qed.

Lemma lang_cat (r1 r2 : regex) (s : string) :
  lang (Cat r1 r2) s <-> exists s1 s2, s = s1 ++ s2 /\ lang r1 s1 /\ lang r2 s2.
Proof.
  split.
  - inversion 1; subst. eauto.
  - intros (s1 & s2 & -> & H1 & H2). now constructor.
Qed.

Lemma all_chars_app (p : ascii -> bool) (a b : string) :
  all_chars p (a ++ b) = all_chars p a && all_chars p b.
Proof.
  induction a as [|c a IH]; simpl; [reflexivity|].
  now rewrite IH, andb_assoc.
Qed.

(** No piece of [s.split('\n')] holds a newline. *)
Lemma split_nl_no_newline (s item : string) :
  In item (split_nl s) -> all_chars is_dot item = true.
Proof.
  revert item; induction s as [|c s IH]; intros item H; cbn [split_nl] in H.
  - destruct H as [<-|[]]. reflexivity.
  - destruct (Ascii.eqb c newline) eqn:N.
    + destruct H as [<-|H]; [reflexivity | now apply IH].
    + destruct (split_nl s) as [|l ls] eqn:E.
      * destruct H as [<-|[]]. simpl. unfold is_dot. now rewrite N.
      * destruct H as [<-|H].
        -- simpl. unfold is_dot at 1. rewrite N. apply IH. now left.
        -- apply IH. now right.
Qed.

End RegexFacts.

(** ** The listener *)

Module ListenerFacts.

Import Text Regex Bridge TextFacts.

Lemma scan_items_filter (items excs : list string) :
  scan_items items excs = (excs ++ filter (re_match re_obj) items)%list.
Proof.
  revert excs; induction items as [|item items IH]; intros excs; simpl.
  - now rewrite app_nil_r.
  - rewrite IH. destruct (re_match re_obj item); [|reflexivity].
    now rewrite <- app_assoc.
Qed.

(** Scanning only ever appends. *)
Lemma scan_items_keeps (items excs : list string) (x : string) :
  In x excs -> In x (scan_items items excs).
Proof. rewrite scan_items_filter, in_app_iff. now left. Qed.

Lemma scan_chunks_keeps (chunks : list string) (excs : list string) (x : string) :
  In x excs -> In x (scan_chunks chunks excs).
Proof.
  revert excs; induction chunks as [|c chunks IH]; intros excs H; simpl.
  - assumption.
  - apply IH. now apply scan_items_keeps.
Qed.

Lemma scan_items_captures (items excs : list string) (x : string) :
  In x items -> re_match re_obj x = true -> In x (scan_items items excs).
Proof.
  intros Hin Hm. rewrite scan_items_filter, in_app_iff. right.
  apply filter_In. now split.
Qed.

(** A pass over a chunk without the marker. *)
Lemma listen_body_quiet (t : Thread) (output : string) (console : list console_item) :
  contains (done_marker t) output = false ->
  listen_body t output console =
    (mkThread (thread_id t) (running t) (execution_output t ++ output)
              (scan_items (split_nl output) (java_exceptions t)),
     (console ++ [Written output])%list).
Proof. intros H. unfold listen_body. now rewrite H. Qed.

(** A pass over a chunk with the marker. *)
Lemma listen_body_done (t : Thread) (output : string) (console : list console_item) :
  contains (done_marker t) output = true ->
  listen_body t output console =
    (mkThread (thread_id t) false (execution_output t)
              (scan_items (split_nl output) (java_exceptions t)),
     console).
Proof. intros H. unfold listen_body. now rewrite H. Qed.

Lemma listen_loop_stopped (t : Thread) (incoming : list read)
    (console : list console_item) :
  running t = false -> listen_loop t incoming console = mkRun Returned t incoming console.
Proof. intros H. destruct incoming; simpl; now rewrite H. Qed.

(** The loop goes through the chunks that do not hold the marker, adding
    each to the output and to the console. *)
Lemma listen_loop_quiet (pre : list string) :
  forall (id out : string) (excs : list string) (rest : list read)
         (console : list console_item),
    Forall (fun c => contains ("doneExecution:" ++ id) c = false) pre ->
    listen_loop (mkThread id true out excs) (map Chunk pre ++ rest)%list console =
    listen_loop (mkThread id true (out ++ join pre) (scan_chunks pre excs))
                rest (console ++ map Written pre)%list.
Proof.
  induction pre as [|c pre IH]; intros id out excs rest console Hq.
  - simpl. now rewrite append_nil_r, app_nil_r.
  - inversion Hq as [|? ? Hc Hpre]; subst.
    cbn [map app listen_loop running].
    rewrite listen_body_quiet by exact Hc. cbn [thread_id running execution_output java_exceptions].
    rewrite IH by exact Hpre.
    cbn [join scan_chunks fold_left map].
    now rewrite append_assoc, <- app_assoc.
Qed.

(** The loop ends on the first chunk that holds the marker. *)
Lemma listen_loop_done (id out c : string) (excs : list string)
    (post : list read) (console : list console_item) :
  contains ("doneExecution:" ++ id) c = true ->
  listen_loop (mkThread id true out excs) (Chunk c :: post) console =
  mkRun Returned (mkThread id false out (scan_items (split_nl c) excs)) post console.
Proof.
  intros Hc. cbn [listen_loop running].
  rewrite listen_body_done by exact Hc.
  now rewrite listen_loop_stopped.
Qed.

Lemma running_history_quiet (pre : list string) :
  forall (id out : string) (excs : list string) (rest : list read),
    Forall (fun c => contains ("doneExecution:" ++ id) c = false) pre ->
    running_history (mkThread id true out excs) (map Chunk pre ++ rest)%list =
    (repeat true (List.length pre) ++
     running_history (mkThread id true (out ++ join pre) (scan_chunks pre excs)) rest)%list.
Proof.
  induction pre as [|c pre IH]; intros id out excs rest Hq.
  - simpl. now rewrite append_nil_r.
  - inversion Hq as [|? ? Hc Hpre]; subst.
    cbn [map app running_history running].
    rewrite listen_body_quiet by exact Hc.
    cbn [fst thread_id running execution_output java_exceptions].
    rewrite IH by exact Hpre.
    cbn [join scan_chunks fold_left length repeat app].
    now rewrite append_assoc.
Qed.

Lemma running_history_done (id out c : string) (excs : list string) (post : list read) :
  contains ("doneExecution:" ++ id) c = true ->
  running_history (mkThread id true out excs) (Chunk c :: post) = [false].
Proof.
  intros Hc. cbn [running_history running].
  rewrite listen_body_done by exact Hc. cbn [fst running].
  now destruct post.
Qed.

End ListenerFacts.

Module ListenerProps.

Import Text Regex Bridge TextFacts ListenerFacts.

(** The state of the thread object when the loop is left on the chunk [c],
    after the chunks [pre] that do not hold the marker. *)
Lemma listen_run (t : Thread) (pre : list string) (c : string)
    (post : list read) (console : list console_item) :
  running t = true ->
  Forall (fun x => contains (done_marker t) x = false) pre ->
  contains (done_marker t) c = true ->
  listenToSocketOutput t (map Chunk pre ++ Chunk c :: post)%list console =
  mkRun Returned
        (mkThread (thread_id t) false (join pre)
           (scan_items (split_nl c) (scan_chunks pre (java_exceptions t))))
        post (console ++ map Written pre)%list.
Proof.
  destruct t as [id r out excs]; unfold done_marker; cbn [thread_id running java_exceptions].
  intros -> Hpre Hc. unfold listenToSocketOutput. cbn [thread_id running java_exceptions].
  rewrite listen_loop_quiet by exact Hpre.
  now rewrite listen_loop_done by exact Hc.
Qed.

(** Without the marker in any single chunk the loop reads on: it ends
    blocked in [recv], with [running] still set. *)
Lemma listen_run_blocked (t : Thread) (chunks : list string)
    (console : list console_item) :
  running t = true ->
  Forall (fun x => contains (done_marker t) x = false) chunks ->
  listenToSocketOutput t (map Chunk chunks) console =
  mkRun Blocked
        (mkThread (thread_id t) true (join chunks)
           (scan_chunks chunks (java_exceptions t)))
        [] (console ++ map Written chunks)%list.
Proof.
  destruct t as [id r out excs]; unfold done_marker; cbn [thread_id running java_exceptions].
  intros -> Hq. unfold listenToSocketOutput. cbn [thread_id running java_exceptions].
  rewrite <- (app_nil_r (map Chunk chunks)).
  now rewrite listen_loop_quiet by exact Hq.
Qed.

(** C1, as amended.  The listener sets [running] to false exactly once, in
    the pass that reads the first chunk which itself holds
    [doneExecution:<id>]: every earlier pass leaves it true, the loop is
    left there and the later chunks stay unread.  The test is made chunk by
    chunk: when no single chunk holds the marker, [running] stays true and
    the listener ends blocked in its next read. *)
Theorem completion_on_first_marker_chunk (t : Thread) (pre : list string)
    (c : string) (post : list read) (console : list console_item) :
  running t = true ->
  Forall (fun x => contains (done_marker t) x = false) pre ->
  (contains (done_marker t) c = true ->
   let run := listenToSocketOutput t (map Chunk pre ++ Chunk c :: post)%list console in
   end_of run = Returned /\
   running (final run) = false /\
   unread run = post /\
   running_history t (map Chunk pre ++ Chunk c :: post)%list =
     (repeat true (List.length pre) ++ [false])%list) /\
  (let run := listenToSocketOutput t (map Chunk pre) console in
   end_of run = Blocked /\
   running (final run) = true /\
   running_history t (map Chunk pre) = repeat true (List.length pre)).
Proof.
  intros Hr Hpre. split.
  - intros Hc. cbv zeta. rewrite (listen_run t pre c post console Hr Hpre Hc).
    cbn [end_of final unread running]. repeat split.
    destruct t as [id r out excs]; unfold done_marker in *; cbn [thread_id running] in *.
    subst r. rewrite running_history_quiet by exact Hpre.
    now rewrite running_history_done by exact Hc.
  - cbv zeta. rewrite (listen_run_blocked t pre console Hr Hpre).
    cbn [end_of final running]. repeat split.
    destruct t as [id r out excs]; unfold done_marker in *; cbn [thread_id running] in *.
    subst r. rewrite <- (app_nil_r (map Chunk pre)).
    rewrite running_history_quiet by exact Hpre.
    cbn [running_history running]. now rewrite app_nil_r.
Qed.

(** C2.  When the loop is left on a chunk that holds the marker, the
    accumulated output is exactly the concatenation of the earlier chunks,
    none of which holds the marker: nothing of the last chunk is in it,
    whatever text stands before or after the marker there.  The console
    got the same chunks and nothing else. *)
Theorem completion_chunk_discarded (t : Thread) (pre : list string)
    (c : string) (post : list read) (console : list console_item) :
  running t = true ->
  Forall (fun x => contains (done_marker t) x = false) pre ->
  contains (done_marker t) c = true ->
  let run := listenToSocketOutput t (map Chunk pre ++ Chunk c :: post)%list console in
  execution_output (final run) = join pre /\
  console_of run = (console ++ map Written pre)%list.
Proof.
  intros Hr Hpre Hc. cbv zeta.
  rewrite (listen_run t pre c post console Hr Hpre Hc). now split.
Qed.

(** C10.  The lines of a chunk are scanned before the chunk is tested for
    the marker: a line of the chunk that holds the marker is appended to
    the exception list when it matches the pattern, although that chunk
    adds nothing to the output. *)
Theorem fatal_line_in_completion_chunk (t : Thread) (pre : list string)
    (c : string) (post : list read) (console : list console_item)
    (line : string) :
  running t = true ->
  Forall (fun x => contains (done_marker t) x = false) pre ->
  contains (done_marker t) c = true ->
  In line (split_nl c) ->
  re_match re_obj line = true ->
  let run := listenToSocketOutput t (map Chunk pre ++ Chunk c :: post)%list console in
  In line (java_exceptions (final run)) /\
  java_exceptions (final run) =
    (scan_chunks pre (java_exceptions t) ++
     filter (re_match re_obj) (split_nl c))%list /\
  execution_output (final run) = join pre.
Proof.
  intros Hr Hpre Hc Hin Hm. cbv zeta.
  rewrite (listen_run t pre c post console Hr Hpre Hc).
  cbn [final java_exceptions execution_output]. repeat split.
  - now apply scan_items_captures.
  - apply scan_items_filter.
Qed.

End ListenerProps.

(** ** The result handle *)

Module HandleFacts.

Import Text Regex Bridge TextFacts ListenerFacts.

(** The thread object a pass leaves does not depend on the console. *)
Lemma listen_body_thread (t : Thread) (output : string)
    (c1 c2 : list console_item) :
  fst (listen_body t output c1) = fst (listen_body t output c2).
Proof. unfold listen_body. now destruct (negb _). Qed.

Lemma listen_upto_rest (n : nat) (t : Thread) (incoming : list read) :
  running t = false -> listen_upto n t incoming = t.
Proof. intros H. destruct n; simpl; [reflexivity | now rewrite H]. Qed.

(** Once [running] is seen false the listener has returned, and what was
    seen is the thread object as it stays. *)
Lemma listen_upto_stopped (n : nat) :
  forall (t : Thread) (incoming : list read) (console : list console_item),
    running (listen_upto n t incoming) = false ->
    end_of (listen_loop t incoming console) = Returned /\
    final (listen_loop t incoming console) = listen_upto n t incoming.
Proof.
  induction n as [|n IH]; intros t incoming console H.
  - simpl in *. now rewrite listen_loop_stopped.
  - destruct (running t) eqn:Hr.
    + destruct incoming as [|[output|msg] rest]; simpl in H; rewrite Hr in H;
        try congruence.
      cbn [listen_loop listen_upto]. rewrite Hr.
      destruct (listen_body t output console) as [t' console'] eqn:Hb.
      assert (Ht : fst (listen_body t output []) = t').
      { rewrite (listen_body_thread t output [] console), Hb. reflexivity. }
      rewrite Ht in *. now apply IH.
    + rewrite listen_upto_rest by exact Hr.
      now rewrite listen_loop_stopped.
Qed.

(** After that, nothing changes any more. *)
Lemma listen_upto_stable (n : nat) :
  forall (m : nat) (t : Thread) (incoming : list read),
    running (listen_upto n t incoming) = false ->
    n <= m ->
    listen_upto m t incoming = listen_upto n t incoming.
Proof.
  induction n as [|n IH]; intros m t incoming H Hle.
  - simpl in *. now apply listen_upto_rest.
  - destruct m as [|m]; [lia|].
    destruct (running t) eqn:Hr.
    + destruct incoming as [|[output|msg] rest]; simpl in *; rewrite Hr in *;
        try congruence.
      apply IH; [assumption | lia].
    + now rewrite !listen_upto_rest.
Qed.

(** The listener comes to rest within as many passes as there are reads. *)
Lemma listen_upto_final (incoming : list read) :
  forall (n : nat) (t : Thread) (console : list console_item),
    List.length incoming <= n ->
    listen_upto n t incoming = final (listen_loop t incoming console).
Proof.
  induction incoming as [|r rest IH]; intros n t console Hn.
  - destruct n; simpl; destruct (running t); reflexivity.
  - destruct n as [|n]; [simpl in Hn; lia|].
    cbn [listen_loop listen_upto].
    destruct (running t) eqn:Hr; [|reflexivity].
    destruct r as [output|msg]; [|reflexivity].
    destruct (listen_body t output console) as [t' console'] eqn:Hb.
    assert (Ht : fst (listen_body t output []) = t').
    { rewrite (listen_body_thread t output [] console), Hb. reflexivity. }
    rewrite Ht. apply IH. simpl in Hn. lia.
Qed.

(** [running_history] lists the values of [running] that the successive
    passes leave in the thread object. *)
Lemma running_history_upto (incoming : list read) :
  forall (t : Thread) (k : nat),
    k < List.length (running_history t incoming) ->
    nth k (running_history t incoming) true =
      running (listen_upto (S k) t incoming).
Proof.
  induction incoming as [|r rest IH]; intros t k H;
    cbn [running_history] in *; destruct (running t) eqn:Hr;
    try (simpl in H; lia).
  destruct r as [output|msg]; [|simpl in H; lia].
  cbn [listen_upto]. rewrite Hr.
  destruct k as [|k]; [reflexivity|].
  cbn [nth]. apply IH. simpl in H. lia.
Qed.

(** The reads the loop has gone through and the reads it has left make up
    the script, but for the one read that failed. *)
Lemma reads_accounted (incoming : list read) :
  forall (t : Thread) (console : list console_item),
    List.length incoming =
      List.length (running_history t incoming) +
      List.length (unread (listen_loop t incoming console)) +
      match end_of (listen_loop t incoming console) with
      | Raised _ => 1
      | _ => 0
      end.
Proof.
  induction incoming as [|r rest IH]; intros t console;
    cbn [listen_loop running_history]; destruct (running t) eqn:Hr;
    try (cbn; lia).
  destruct r as [output|msg]; [|cbn; lia].
  destruct (listen_body t output console) as [t' console'] eqn:Hb.
  assert (Ht : fst (listen_body t output []) = t').
  { rewrite (listen_body_thread t output [] console), Hb. reflexivity. }
  rewrite Ht. cbn [List.length]. rewrite (IH t' console'). lia.
Qed.

(** What a returning [getOutput] has seen. *)
Lemma getOutput_some (view : nat -> Thread) (fuel : nat) :
  forall (now k : nat) (out : string),
    getOutput view fuel now = Some (k, out) ->
    now <= k < now + fuel /\
    running (view k) = false /\
    out = execution_output (view k) /\
    (forall j, now <= j < k -> running (view j) = true).
Proof.
  induction fuel as [|fuel IH]; intros now k out H; simpl in H; [discriminate|].
  destruct (running (view now)) eqn:Hr.
  - destruct (IH _ _ _ H) as (Hk & Hf & Ho & Hj).
    split; [lia|]. split; [assumption|]. split; [assumption|].
    intros j Hjk. destruct (Nat.eq_dec j now) as [->|]; [assumption|].
    apply Hj; lia.
  - inversion H; subst.
    split; [lia|]. split; [assumption|]. split; [reflexivity|].
    intros j Hjk; lia.
Qed.

(** [getOutput] goes on sleeping as long as [running] is seen true. *)
Lemma getOutput_none (view : nat -> Thread) (fuel : nat) :
  forall now : nat,
    (forall j, now <= j < now + fuel -> running (view j) = true) ->
    getOutput view fuel now = None.
Proof.
  induction fuel as [|fuel IH]; intros now H; simpl; [reflexivity|].
  rewrite H by lia. apply IH. intros j Hj. apply H. lia.
Qed.

(** It returns at the first look that sees [running] false. *)
Lemma getOutput_reaches (view : nat -> Thread) (fuel : nat) :
  forall now k : nat,
    now <= k < now + fuel ->
    running (view k) = false ->
    exists k', k' <= k /\
      getOutput view fuel now = Some (k', execution_output (view k')).
Proof.
  induction fuel as [|fuel IH]; intros now k Hk Hr; [lia|].
  simpl. destruct (running (view now)) eqn:Hn.
  - assert (now <> k) by congruence.
    destruct (IH (S now) k) as (k' & Hle & E); [lia | assumption |].
    exists k'. now split.
  - exists now. split; [lia | reflexivity].
Qed.

End HandleFacts.

Module HandleProps.

Import Text Regex Bridge TextFacts ListenerFacts HandleFacts.

(** A look that sees [running] false sees the thread object at rest. *)
Lemma view_at_rest (progress : nat -> nat) (result : CcsExecutionResult) (k : nat) :
  running (view progress result k) = false ->
  view progress result k = thread result /\
  end_of (listenToSocketOutput (thread_start result) (feed result) []) = Returned.
Proof.
  unfold view, thread_after, thread, listenToSocketOutput. intros H.
  destruct (listen_upto_stopped _ _ _ [] H) as [He Hf]. now rewrite Hf.
Qed.

(** A listener that does not return leaves [running] true for ever. *)
Lemma view_running (progress : nat -> nat) (result : CcsExecutionResult) (k : nat) :
  end_of (listenToSocketOutput (thread_start result) (feed result) []) <> Returned ->
  running (view progress result k) = true.
Proof.
  intros H. destruct (running (view progress result k)) eqn:E; [reflexivity|].
  destruct (view_at_rest _ _ _ E) as [_ He]. contradiction.
Qed.

(** C5.  [getOutput] does not return while it sees [running] true: a call
    that returns at some look saw [running] true at every look before it and
    false at that one, and what it returns is the [execution_output] the
    thread object holds at that look, which is the output accumulated by the
    listener.  A call made while [running] is true does return once a look
    sees [running] false: it returns at the first such look, with that
    output.  Once [running] is false, a call returns at the very look it
    starts with, without sleeping, and every such call returns the same
    string, the output accumulated by the listener. *)
Theorem getOutput_blocking_contract (progress : nat -> nat)
    (result : CcsExecutionResult) :
  (forall a b, a <= b -> progress a <= progress b) ->
  (forall fuel now k out,
      getOutput (view progress result) fuel now = Some (k, out) ->
      running (view progress result k) = false /\
      (forall j, now <= j < k -> running (view progress result j) = true) /\
      out = execution_output (view progress result k) /\
      out = execution_output (thread result)) /\
  (forall fuel now,
      (forall j, now <= j < now + fuel -> running (view progress result j) = true) ->
      getOutput (view progress result) fuel now = None) /\
  (forall fuel now k,
      now <= k < now + fuel ->
      running (view progress result k) = false ->
      exists first,
        now <= first <= k /\
        running (view progress result first) = false /\
        (forall j, now <= j < first -> running (view progress result j) = true) /\
        getOutput (view progress result) fuel now =
          Some (first, execution_output (thread result))) /\
  (forall now,
      running (view progress result now) = false ->
      forall later fuel,
        now <= later ->
        getOutput (view progress result) (S fuel) later =
          Some (later, execution_output (thread result))).
Proof.
  intros Hmono. split; [|split; [|split]].
  - intros fuel now k out H.
    destruct (getOutput_some _ _ _ _ _ H) as (_ & Hr & Ho & Hj).
    destruct (view_at_rest _ _ _ Hr) as [Hrest _].
    split; [exact Hr|]. split; [exact Hj|]. split; [exact Ho|].
    now rewrite Ho, Hrest.
  - intros fuel now H. now apply getOutput_none.
  - intros fuel now k Hk Hr.
    destruct (getOutput_reaches (view progress result) fuel now k Hk Hr)
      as (first & Hle & E).
    destruct (getOutput_some _ _ _ _ _ E) as (Hnow & Hrf & _ & Hj).
    destruct (view_at_rest _ _ _ Hrf) as [Hrest _].
    exists first. split; [lia|]. split; [exact Hrf|]. split; [exact Hj|].
    now rewrite E, Hrest.
  - intros now Hr later fuel Hle.
    assert (Hv : view progress result later = view progress result now).
    { unfold view, thread_after in *.
      apply listen_upto_stable; [exact Hr | now apply Hmono]. }
    destruct (view_at_rest _ _ _ Hr) as [Hrest _].
    cbn [getOutput]. rewrite Hv, Hr, Hrest. reflexivity.
Qed.

End HandleProps.


(** ** The client *)

Module ClientProps.

Import Text Regex Bridge TextFacts ListenerFacts HandleFacts HandleProps.

Lemma framed_split (id content : string) :
  framed id content =
  ("startContent:" ++ id ++ nl) ++ content ++ (nl ++ "endContent:" ++ id ++ nl).
Proof. unfold framed. now rewrite !append_assoc. Qed.

Lemma decode_framed (id content : string) :
  decode_submission id (framed id content) = Some content.
Proof.
  unfold decode_submission. rewrite framed_split, strip_prefix_app.
  apply strip_suffix_app.
Qed.

(** Whatever the decoder accepts was framed under that id. *)
Lemma decode_sound (id wire content : string) :
  decode_submission id wire = Some content -> wire = framed id content.
Proof.
  unfold decode_submission.
  destruct (strip_prefix _ wire) as [rest|] eqn:E; [|discriminate].
  intros H. apply strip_prefix_sound in E. apply strip_suffix_sound in H.
  subst. symmetry. apply framed_split.
Qed.

Lemma sent_executePythonContent (t : Thread) (content : string) (w : World) :
  sent (snd (executePythonContent t content w)) =
  (sent w ++ [framed (thread_id t) content])%list.
Proof. reflexivity. Qed.

(** C3.  A submission of the payload [P] under the id [I] adds exactly one
    write to the socket, the text [startContent:I\n + P + \nendContent:I\n];
    the decoder that takes what stands between the opening [startContent:I]
    line and the closing [endContent:I] line gets [P] back, unchanged.  The
    id of a submission made through the client is the one drawn for it. *)
Theorem framing_round_trip (P I : string) (w : World) :
  let wire := "startContent:" ++ I ++ nl ++ P ++ nl ++ "endContent:" ++ I ++ nl in
  sent (snd (executePythonContent (new_thread I) P w)) = (sent w ++ [wire])%list /\
  decode_submission I wire = Some P /\
  sent (snd (sendInterpreterServer P w)) =
    (sent w ++ [framed (uuid_source w (uuid_count w)) P])%list.
Proof.
  cbv zeta. split; [reflexivity|]. split; [|reflexivity].
  apply (decode_framed I P).
Qed.

(** The name the constructor reports the peer under. *)
Lemma init_fails_only_connecting (progress : nat -> nat) (patience : nat)
    (name host_arg : option string) (port_arg : nat) (w : World)
    (e : exn) (w' : World) :
  init progress patience name host_arg port_arg w = Fail e w' ->
  exists eobj w1,
    _socket_connection w = Fail eobj w1 /\
    w' = print (PrintedExn eobj) w1 /\
    e = CcsException
          ("Could not connect to CCS Python Interpreter " ++ "on host:port " ++
           match host_arg with None => hostname w | Some h => h end ++
           ":" ++ decimal port_arg).
Proof.
  unfold init. destruct (_socket_connection w) as [[] w1|eobj w1|].
  - destruct name as [n|]; [|discriminate].
    unfold syncExecution. destruct (sendInterpreterServer _ _) as [result w2].
    destruct (getOutput _ _ _); discriminate.
  - intros H. inversion H; subst. exists eobj, w1. repeat split.
  - discriminate.
Qed.

Lemma socket_connection_fail (w : World) (eobj : exn) (w1 : World) :
  _socket_connection w = Fail eobj w1 ->
  dials w1 = S (dials w) /\ sent w1 = sent w /\
  ((unreachable w <> None /\ incoming w1 = incoming w) \/
   (unreachable w = None /\ exists msg, incoming w = Broken msg :: incoming w1) \/
   (unreachable w = None /\ exists greeting,
      incoming w = Chunk greeting :: incoming w1 /\
      contains "ConnectionRefused" greeting = true)).
Proof.
  unfold _socket_connection. cbn [unreachable incoming dialled].
  destruct (unreachable w) as [m|] eqn:Hu.
  - intros H; inversion H; subst. cbn. repeat split. left. split; [congruence | reflexivity].
  - destruct (incoming w) as [|[greeting|msg] rest] eqn:Hi; [discriminate| |].
    + destruct (contains "ConnectionRefused" greeting) eqn:Hc; [|discriminate].
      intros H; inversion H; subst. cbn. repeat split. right; right.
      split; [reflexivity|]. now exists greeting.
    + intros H; inversion H; subst. cbn. repeat split. right; left.
      split; [reflexivity|]. now exists msg.
Qed.

Lemma socket_connection_ok (w w1 : World) :
  _socket_connection w = Ok tt w1 ->
  dials w1 = S (dials w) /\ sent w1 = sent w /\ stdout w1 = stdout w /\
  uuid_source w1 = uuid_source w /\ uuid_count w1 = uuid_count w /\
  unreachable w = None /\
  exists greeting,
    incoming w = Chunk greeting :: incoming w1 /\
    contains "ConnectionRefused" greeting = false.
Proof.
  unfold _socket_connection. cbn [unreachable incoming dialled].
  destruct (unreachable w) as [m|] eqn:Hu; [discriminate|].
  destruct (incoming w) as [|[greeting|msg] rest] eqn:Hi; try discriminate.
  destruct (contains "ConnectionRefused" greeting) eqn:Hc; [discriminate|].
  intros H; inversion H; subst. cbn. repeat split. now exists greeting.
Qed.

(** C6, as amended.  The constructor makes one connection attempt and one
    read of the greeting, before anything is submitted.  It fails exactly when
    the socket cannot be opened, when the read of the greeting itself fails,
    or when the greeting holds [ConnectionRefused]; the failure is a
    [CcsException], no interpreter object is returned, nothing has been
    sent, and no second attempt is made.  When it succeeds the greeting was
    the one read before the first submission, whose listener starts with the
    read after it. *)
Theorem connection_failure (progress : nat -> nat) (patience : nat)
    (name host_arg : option string) (port_arg : nat) (w : World) :
  ((exists e w', init progress patience name host_arg port_arg w = Fail e w') <->
   (unreachable w <> None \/
    (exists msg rest, incoming w = Broken msg :: rest) \/
    (exists greeting rest,
        incoming w = Chunk greeting :: rest /\
        contains "ConnectionRefused" greeting = true))) /\
  (forall e w',
      init progress patience name host_arg port_arg w = Fail e w' ->
      (exists value, e = CcsException value) /\
      dials w' = S (dials w) /\
      sent w' = sent w /\
      (incoming w' = incoming w \/ incoming w' = tl (incoming w))) /\
  (forall self w',
      init progress patience name host_arg port_arg w = Ok self w' ->
      dials w' = S (dials w) /\
      exists greeting rest,
        incoming w = Chunk greeting :: rest /\
        contains "ConnectionRefused" greeting = false /\
        match name with
        | None => incoming w' = rest /\ sent w' = sent w
        | Some n =>
            exists console,
              let id := uuid_source w (uuid_count w) in
              sent w' = (sent w ++ [framed id ("initializeInterpreter " ++ remove_nl n)])%list /\
              incoming w' = unread (listenToSocketOutput (mkThread id true "" []) rest console)
        end).
Proof.
  split; [split|split].
  - intros (e & w' & H).
    destruct (init_fails_only_connecting _ _ _ _ _ _ _ _ H) as (eobj & w1 & Hs & _ & _).
    destruct (socket_connection_fail _ _ _ Hs) as (_ & _ & [[Hu _]|[[_ [msg Hi]]|[_ [g [Hi Hc]]]]]).
    + now left.
    + right; left. now exists msg, (incoming w1).
    + right; right. now exists g, (incoming w1).
  - intros H. unfold init, _socket_connection. cbn [unreachable incoming dialled].
    destruct (unreachable w) as [m|] eqn:Hu; [eauto|].
    destruct H as [H|[(msg & rest & Hi)|(g & rest & Hi & Hc)]]; [congruence| |].
    + rewrite Hi. eauto.
    + rewrite Hi, Hc. eauto.
  - intros e w' H.
    destruct (init_fails_only_connecting _ _ _ _ _ _ _ _ H) as (eobj & w1 & Hs & -> & ->).
    destruct (socket_connection_fail _ _ _ Hs) as (Hd & Hsent & Hcases).
    split; [eauto|]. split; [exact Hd|]. split; [exact Hsent|].
    cbn [print with_stdout incoming].
    destruct Hcases as [[_ Hi]|[[_ [msg Hi]]|[_ [g [Hi _]]]]].
    + now left.
    + right. now rewrite Hi.
    + right. now rewrite Hi.
  - intros self w' H. unfold init in H.
    destruct (_socket_connection w) as [[] w1|eobj w1|] eqn:Hs; try discriminate.
    destruct (socket_connection_ok _ _ Hs)
      as (Hd & Hsent & Hout & Hus & Huc & Hu & g & Hi & Hc).
    destruct name as [n|].
    + unfold syncExecution, sendInterpreterServer, uuid4, executePythonContent in H.
      cbv beta iota zeta in H.
      match type of H with
      | context [getOutput ?v ?f ?k] => destruct (getOutput v f k); [|discriminate]
      end.
      inversion H; subst.
      cbn [print with_sent with_stdout with_incoming
           hostname unreachable dials incoming sent stdout uuid_source uuid_count
           new_thread thread_id running execution_output java_exceptions].
      split; [exact Hd|]. exists g, (incoming w1).
      split; [exact Hi|]. split; [exact Hc|].
      eexists. cbv zeta. rewrite Hus, Huc, Hsent. split; reflexivity.
    + inversion H; subst. cbn [print with_stdout dials incoming sent].
      split; [exact Hd|]. exists g, (incoming w1). repeat split; assumption.
Qed.

(** A listener that returned left [running] false. *)
Lemma listen_loop_returned (incoming : list read) :
  forall (t : Thread) (console : list console_item),
    end_of (listen_loop t incoming console) = Returned ->
    running (final (listen_loop t incoming console)) = false.
Proof.
  induction incoming as [|r rest IH]; intros t console; cbn [listen_loop];
    destruct (running t) eqn:Hr; cbn [end_of final]; try congruence.
  destruct r as [output|msg]; [|cbn; congruence].
  destruct (listen_body t output console) as [t' console']. apply IH.
Qed.

(** What [getOutput] returns is the output of the listener at rest. *)
Lemma getOutput_result (progress : nat -> nat) (result : CcsExecutionResult)
    (fuel now k : nat) (out : string) :
  getOutput (view progress result) fuel now = Some (k, out) ->
  out = execution_output (thread result) /\
  running (thread result) = false /\
  end_of (listenToSocketOutput (thread_start result) (feed result) []) = Returned.
Proof.
  intros H. destruct (getOutput_some _ _ _ _ _ H) as (_ & Hr & -> & _).
  destruct (view_at_rest _ _ _ Hr) as [Hv He]. rewrite <- Hv. auto.
Qed.

(** When the listener returns and the main thread is not starved of looks,
    [getOutput] returns. *)
Lemma getOutput_eventually (progress : nat -> nat) (result : CcsExecutionResult) :
  end_of (listenToSocketOutput (thread_start result) (feed result) []) = Returned ->
  (exists k, List.length (feed result) <= progress k) ->
  exists fuel k,
    getOutput (view progress result) fuel 0 = Some (k, execution_output (thread result)).
Proof.
  intros He [k Hk].
  assert (Hv : view progress result k = thread result).
  { unfold view, thread_after, thread, listenToSocketOutput.
    now apply listen_upto_final. }
  assert (Hr : running (view progress result k) = false).
  { rewrite Hv. unfold thread, listenToSocketOutput in *.
    now apply listen_loop_returned. }
  destruct (getOutput_reaches (view progress result) (S k) 0 k) as (k' & _ & E);
    [lia | exact Hr |].
  exists (S k), k'. rewrite E.
  destruct (getOutput_result _ _ _ _ _ _ E) as (-> & _). reflexivity.
Qed.

(** A listener that does not return strands [getOutput]. *)
Lemma getOutput_stranded (progress : nat -> nat) (result : CcsExecutionResult)
    (fuel now : nat) :
  end_of (listenToSocketOutput (thread_start result) (feed result) []) <> Returned ->
  getOutput (view progress result) fuel now = None.
Proof.
  intros H. apply getOutput_none. intros j _. now apply view_running.
Qed.

(** A failing read ends the listener with the exception, at once: the reads
    after it are left alone and [running] stays true. *)
Lemma listen_read_failure (t : Thread) (pre : list string) (msg : string)
    (post : list read) (console : list console_item) :
  running t = true ->
  Forall (fun x => contains (done_marker t) x = false) pre ->
  listenToSocketOutput t (map Chunk pre ++ Broken msg :: post)%list console =
  mkRun (Raised (CcsException "Communication Problem with Socket"))
        (mkThread (thread_id t) true (join pre) (scan_chunks pre (java_exceptions t)))
        post
        (console ++ map Written pre ++ [PrintedExn (LibraryError msg)])%list.
Proof.
  destruct t as [id r out excs]; unfold done_marker; cbn [thread_id running java_exceptions].
  intros -> Hq. unfold listenToSocketOutput. cbn [thread_id running java_exceptions].
  rewrite listen_loop_quiet by exact Hq. cbn [listen_loop running].
  now rewrite <- app_assoc.
Qed.

(** C8.  [syncExecution] is [aSyncExecution] followed by [getOutput] on the
    handle it returned: the two give the same outcome, and when the call
    returns, the handle and the world are those of the asynchronous call, the
    listener has returned with [running] false, and [getOutput] on the
    asynchronous handle gives the accumulated output. *)
Theorem syncExecution_is_async_then_getOutput (progress : nat -> nat)
    (patience : nat) (statement : string) (w : World) :
  syncExecution progress patience statement w =
    submitSync_spec progress patience statement w /\
  (forall result w',
      syncExecution progress patience statement w = Ok result w' ->
      (result, w') = aSyncExecution statement w /\
      end_of (listenToSocketOutput (thread_start result) (feed result) []) = Returned /\
      running (thread result) = false /\
      exists k,
        getOutput (view progress (fst (aSyncExecution statement w))) patience 0 =
          Some (k, execution_output (thread result))).
Proof.
  unfold syncExecution, submitSync_spec, aSyncExecution.
  destruct (sendInterpreterServer statement w) as [r w1]. cbn [fst snd].
  split; [reflexivity|].
  intros result w' H.
  destruct (getOutput (view progress r) patience 0) as [[k out]|] eqn:E; [|discriminate].
  inversion H; subst.
  destruct (getOutput_result _ _ _ _ _ _ E) as (-> & Hr & He).
  repeat split; try assumption. now exists k.
Qed.

(** C9.  The payload [print(1+1)] submitted under the id [abc123], with the
    peer sending the chunk [2\n] and then the chunk [doneExecution:abc123\n]:
    [getOutput] returns, it returns exactly [2\n], and the exception list of
    the handle is empty. *)
Theorem scenario_print_sum (progress : nat -> nat) (w : World) :
  uuid_source w (uuid_count w) = "abc123" ->
  incoming w = [Chunk ("2" ++ nl); Chunk ("doneExecution:abc123" ++ nl)] ->
  (exists k, 2 <= progress k) ->
  let result := fst (aSyncExecution "print(1+1)" w) in
  sent (snd (aSyncExecution "print(1+1)" w)) =
    (sent w ++ [("startContent:abc123" ++ nl ++ "print(1+1)" ++ nl ++
                 "endContent:abc123" ++ nl)%string])%list /\
  (exists fuel k, getOutput (view progress result) fuel 0 = Some (k, "2" ++ nl)) /\
  (forall fuel now k out,
      getOutput (view progress result) fuel now = Some (k, out) -> out = "2" ++ nl) /\
  java_exceptions (thread result) = [] /\
  running (thread result) = false.
Proof.
  intros Hid Hin Hfair. cbv zeta.
  unfold aSyncExecution, sendInterpreterServer, uuid4, executePythonContent.
  cbn [fst snd with_sent with_stdout with_incoming hostname unreachable dials
       incoming sent stdout uuid_source uuid_count new_thread thread_id running
       execution_output java_exceptions].
  rewrite Hid, Hin.
  set (result := mkResult _ _).
  assert (Ht : thread result = mkThread "abc123" false ("2" ++ nl) []) by reflexivity.
  assert (He : end_of (listenToSocketOutput (thread_start result) (feed result) []) = Returned)
    by reflexivity.
  split; [reflexivity|]. split; [|split; [|split]].
  - destruct (getOutput_eventually progress result He Hfair) as (fuel & k & E).
    exists fuel, k. now rewrite E, Ht.
  - intros fuel now k out E.
    destruct (getOutput_result _ _ _ _ _ _ E) as (-> & _). now rewrite Ht.
  - now rewrite Ht.
  - now rewrite Ht.
Qed.

End ClientProps.

(** ** The fatal pattern *)

Module FatalPattern.

Import Text Regex Bridge TextFacts RegexFacts ListenerFacts.

(** What [re_obj] matches on a line: the two dots of the pattern stand for
    any character, not for a full stop. *)
Theorem fatal_pattern_iff (line : string) :
  all_chars is_dot line = true ->
  (re_match re_obj line = true <->
   exists a c1 c2 wd b,
     line = a ++ "java" ++ String c1 ("lang" ++ String c2 (wd ++ "Exception" ++ b)) /\
     all_chars is_word wd = true).
Proof.
  intros Hline. rewrite re_match_iff. split.
  - intros (p & q & E & L). unfold re_obj in L.
    apply lang_cat in L as (a & r1 & -> & _ & L).
    apply lang_cat in L as (j & r2 & -> & Lj & L). apply lang_lit in Lj as ->.
    apply lang_cat in L as (d1 & r3 & -> & Ld1 & L).
    apply lang_dot in Ld1 as (c1 & -> & _).
    apply lang_cat in L as (l & r4 & -> & Ll & L). apply lang_lit in Ll as ->.
    apply lang_cat in L as (d2 & r5 & -> & Ld2 & L).
    apply lang_dot in Ld2 as (c2 & -> & _).
    apply lang_cat in L as (wd & r6 & -> & Lw & L).
    apply (lang_star_class WordCh is_word lang_word) in Lw.
    apply lang_cat in L as (ex & b & -> & Le & _). apply lang_lit in Le as ->.
    exists a, c1, c2, wd, (b ++ q). split; [|exact Lw].
    rewrite E, !append_assoc. reflexivity.
  - intros (a & c1 & c2 & wd & b & E & Hw). subst line.
    rewrite all_chars_app in Hline. apply andb_prop in Hline as [Ha H].
    cbn in H. apply andb_prop in H as [Hc1 H]. apply andb_prop in H as [Hc2 H].
    rewrite all_chars_app in H. apply andb_prop in H as [_ H].
    cbn in H.
    eexists; exists "". split; [now rewrite append_nil_r|].
    unfold re_obj.
    apply L_cat; [now apply (lang_star_class Dot is_dot lang_dot)|].
    apply L_cat; [now apply lang_lit|].
    change (String c1 ?x) with (String c1 "" ++ x).
    apply L_cat; [now constructor|].
    apply L_cat; [now apply lang_lit|].
    change (String c2 ?x) with (String c2 "" ++ x).
    apply L_cat; [now constructor|].
    apply L_cat; [now apply (lang_star_class WordCh is_word lang_word)|].
    apply L_cat; [now apply lang_lit|].
    now apply (lang_star_class Dot is_dot lang_dot).
Qed.

(** A pass of the loop adds to the exception list exactly the lines of the
    chunk that [re_obj] matches, whichever branch the marker test takes. *)
Lemma captured_iff (t : Thread) (output line : string) (console : list console_item) :
  In line (java_exceptions (fst (listen_body t output console))) <->
  In line (java_exceptions t) \/
  (In line (split_nl output) /\ re_match re_obj line = true).
Proof.
  unfold listen_body.
  destruct (negb (contains (done_marker t) output)); cbn [fst java_exceptions];
    rewrite scan_items_filter, in_app_iff, filter_In; reflexivity.
Qed.

(** The two lines the specification names. *)
Lemma named_lines :
  re_match re_obj "java.lang.NullPointerException at Foo.bar" = true /\
  re_match re_obj "nothing bad here" = false.
Proof. split; reflexivity. Qed.

(** C4.  The line [javaXlangYException] does not hold the token
    [java.lang.], and the listener appends it to the exception list all the
    same: the dots of the pattern are not escaped. *)
Theorem unescaped_dots_capture :
  let line := "javaXlangYException" in
  let t := mkThread "abc123" true "" [] in
  let run := listenToSocketOutput t
               [Chunk (line ++ nl); Chunk ("doneExecution:abc123" ++ nl)] [] in
  contains "java.lang." line = false /\
  java_exceptions (final run) = [line] /\
  end_of run = Returned /\
  execution_output (final run) = line ++ nl.
Proof. cbv zeta. repeat split; reflexivity. Qed.

End FatalPattern.

(** ** A read that fails *)

Module ReadFailure.

Import Text Regex Bridge TextFacts ListenerFacts HandleFacts HandleProps ClientProps.

(** C7.  The peer sends a chunk, then the read fails.  The listener raises
    [CcsException] at once and leaves the later reads alone; no new
    connection is made.  The exception ends the listener's thread only:
    [running] stays true, so [getOutput] never returns and [syncExecution]
    never comes back to the code that made the submission. *)
Theorem read_failure_strands_caller :
  let w := scripted "abc123"
             [Chunk ("partial" ++ nl); Broken "Connection reset by peer";
              Chunk ("doneExecution:abc123" ++ nl)] in
  let result := fst (sendInterpreterServer "print(1)" w) in
  let run := listenToSocketOutput (thread_start result) (feed result) [] in
  end_of run = Raised (CcsException "Communication Problem with Socket") /\
  unread run = [Chunk ("doneExecution:abc123" ++ nl)] /\
  incoming (snd (sendInterpreterServer "print(1)" w)) =
    [Chunk ("doneExecution:abc123" ++ nl)] /\
  dials (snd (sendInterpreterServer "print(1)" w)) = dials w /\
  running (thread result) = true /\
  (forall progress fuel now, getOutput (view progress result) fuel now = None) /\
  (forall progress patience, syncExecution progress patience "print(1)" w = Pending).
Proof.
  cbv zeta. repeat split.
  - intros progress fuel now. apply getOutput_stranded. discriminate.
  - intros progress patience. unfold syncExecution.
    destruct (sendInterpreterServer "print(1)" _) as [result w'] eqn:E.
    rewrite (getOutput_stranded progress result patience 0); [reflexivity|].
    inversion E; subst. discriminate.
Qed.

End ReadFailure.

(** ** Scenarios *)

Module Scenarios.

Import Text Regex Bridge TextFacts ListenerFacts HandleFacts.

(** C1, as first stated, fails: the same bytes, delivered whole and
    delivered with the marker cut in two.  Delivered whole they end the
    listener.  Cut in two, neither chunk holds the marker: [running] stays
    true, the listener waits for a read that does not come, and the marker
    ends up in the output. *)
Lemma split_marker_counterexample :
  let t := mkThread "abc123" true "" [] in
  let whole := ["doneExecution:abc123" ++ nl] in
  let cut := ["doneExec"; "ution:abc123" ++ nl] in
  join cut = join whole /\
  contains (done_marker t) (join cut) = true /\
  running (final (listenToSocketOutput t (map Chunk whole) [])) = false /\
  running (final (listenToSocketOutput t (map Chunk cut) [])) = true /\
  end_of (listenToSocketOutput t (map Chunk cut) []) = Blocked /\
  execution_output (final (listenToSocketOutput t (map Chunk cut) [])) =
    "doneExecution:abc123" ++ nl.
Proof. cbv zeta. repeat split; reflexivity. Qed.

Lemma completion_on_first_marker_chunk_witness :
  let t := mkThread "abc123" true "" [] in
  let pre := ["2" ++ nl; "doneExec"] in
  let c := "x" ++ nl ++ "doneExecution:abc123" ++ nl ++ "trailing" in
  let post := [Chunk "late"] in
  let run := listenToSocketOutput t (map Chunk pre ++ Chunk c :: post)%list [] in
  end_of run = Returned /\
  running (final run) = false /\
  unread run = post /\
  running_history t (map Chunk pre ++ Chunk c :: post)%list = [true; true; false].
Proof.
  cbv zeta.
  apply (ListenerProps.completion_on_first_marker_chunk
           (mkThread "abc123" true "" []) ["2" ++ nl; "doneExec"]
           ("x" ++ nl ++ "doneExecution:abc123" ++ nl ++ "trailing")
           [Chunk "late"] []).
  - reflexivity.
  - repeat constructor.
  - reflexivity.
Defined.

Lemma completion_chunk_discarded_witness :
  let t := mkThread "abc123" true "" [] in
  let c := "before" ++ nl ++ "doneExecution:abc123" ++ nl ++ "after" in
  let pre := ["a" ++ nl; "b"] in
  let run := listenToSocketOutput t
               (map Chunk pre ++ Chunk c :: [Chunk "late"])%list [] in
  execution_output (final run) = "a" ++ nl ++ "b" /\
  console_of run = [Written ("a" ++ nl); Written "b"].
Proof.
  cbv zeta.
  apply (ListenerProps.completion_chunk_discarded
           (mkThread "abc123" true "" []) ["a" ++ nl; "b"]
           ("before" ++ nl ++ "doneExecution:abc123" ++ nl ++ "after")
           [Chunk "late"] []).
  - reflexivity.
  - repeat constructor.
  - reflexivity.
Defined.

Lemma fatal_line_in_completion_chunk_witness :
  let t := mkThread "abc123" true "" [] in
  let line := "java.lang.NullPointerException at Foo.bar" in
  let c := line ++ nl ++ "doneExecution:abc123" ++ nl in
  let pre := ["2" ++ nl] in
  let run := listenToSocketOutput t (map Chunk pre ++ Chunk c :: [])%list [] in
  In line (java_exceptions (final run)) /\
  java_exceptions (final run) = [line] /\
  execution_output (final run) = "2" ++ nl.
Proof.
  cbv zeta.
  apply (ListenerProps.fatal_line_in_completion_chunk
           (mkThread "abc123" true "" []) ["2" ++ nl]
           ("java.lang.NullPointerException at Foo.bar" ++ nl ++
            "doneExecution:abc123" ++ nl)
           [] [] "java.lang.NullPointerException at Foo.bar").
  - reflexivity.
  - repeat constructor.
  - reflexivity.
  - left. reflexivity.
  - reflexivity.
Defined.

Lemma getOutput_blocking_contract_witness :
  let result :=
    mkResult (mkThread "abc123" true "" [])
             [Chunk ("2" ++ nl); Chunk ("doneExecution:abc123" ++ nl)] in
  let v := view (fun k => k) result in
  getOutput v 2 0 = None /\
  (exists first, getOutput v 5 0 = Some (first, "2" ++ nl)) /\
  (forall k out, getOutput v 5 0 = Some (k, out) -> out = "2" ++ nl) /\
  getOutput v 1 2 = Some (2, "2" ++ nl) /\
  getOutput v 1 7 = Some (7, "2" ++ nl).
Proof.
  cbv zeta.
  destruct (HandleProps.getOutput_blocking_contract (fun k => k)
              (mkResult (mkThread "abc123" true "" [])
                 [Chunk ("2" ++ nl); Chunk ("doneExecution:abc123" ++ nl)])
              (fun a b H => H)) as (A & B & C & D).
  split; [|split; [|split; [|split]]].
  - apply B. intros j Hj. destruct j as [|[|j]]; [reflexivity | reflexivity | lia].
  - destruct (C 5 0 2 (conj (le_0_n 2) (le_n_S _ _ (le_n_S _ _ (le_n_S _ _ (le_0_n 2)))))
                eq_refl) as (first & _ & _ & _ & E).
    exists first. exact E.
  - intros k out H. destruct (A 5 0 k out H) as (_ & _ & _ & E). exact E.
  - apply (D 2 eq_refl 2 0). lia.
  - apply (D 2 eq_refl 7 0). lia.
Defined.

(** C6, as first stated, fails: the socket opens, no greeting holds
    [ConnectionRefused] (none arrives: the read of the greeting fails), and
    the constructor fails all the same. *)
Lemma greeting_read_failure_counterexample :
  let w := scripted "abc123" [Broken "Connection reset by peer"] in
  (exists e w', init (fun k => k) 1 None None 4444 w = Fail e w') /\
  ~ (unreachable w <> None \/
     exists greeting rest,
       incoming w = Chunk greeting :: rest /\
       contains "ConnectionRefused" greeting = true).
Proof.
  cbv zeta. split.
  - eexists. eexists. reflexivity.
  - intros [H|(greeting & rest & H & _)].
    + apply H. reflexivity.
    + discriminate H.
Qed.

Lemma connection_failure_witness :
  let w := scripted "abc123" [Chunk "ConnectionRefused by peer"; Chunk "more"] in
  exists e w',
    init (fun k => k) 1 None None 4444 w = Fail e w' /\
    dials w' = 1 /\ sent w' = [] /\
    (incoming w' = incoming w \/ incoming w' = [Chunk "more"]).
Proof.
  cbv zeta.
  destruct (ClientProps.connection_failure (fun k => k) 1 None None 4444
              (scripted "abc123" [Chunk "ConnectionRefused by peer"; Chunk "more"]))
    as (A & B & _).
  destruct (proj2 A) as (e & w' & H).
  { right; right. eexists. eexists. split; reflexivity. }
  exists e, w'. destruct (B e w' H) as (_ & Hd & Hs & Hi). auto.
Defined.

Lemma syncExecution_is_async_then_getOutput_witness :
  let w := scripted "abc123"
             [Chunk ("2" ++ nl); Chunk ("doneExecution:abc123" ++ nl)] in
  let result := fst (aSyncExecution "print(1+1)" w) in
  syncExecution (fun k => k) 3 "print(1+1)" w =
    Ok result (snd (aSyncExecution "print(1+1)" w)) /\
  end_of (listenToSocketOutput (thread_start result) (feed result) []) = Returned /\
  running (thread result) = false.
Proof.
  cbv zeta.
  pose (w := scripted "abc123"
               [Chunk ("2" ++ nl); Chunk ("doneExecution:abc123" ++ nl)]).
  assert (H : syncExecution (fun k => k) 3 "print(1+1)" w =
              Ok (fst (aSyncExecution "print(1+1)" w))
                 (snd (aSyncExecution "print(1+1)" w))) by reflexivity.
  destruct (proj2 (ClientProps.syncExecution_is_async_then_getOutput
                     (fun k => k) 3 "print(1+1)" w) _ _ H) as (_ & He & Hr & _).
  exact (conj H (conj He Hr)).
Defined.

Lemma scenario_print_sum_witness :
  let w := scripted "abc123"
             [Chunk ("2" ++ nl); Chunk ("doneExecution:abc123" ++ nl)] in
  let result := fst (aSyncExecution "print(1+1)" w) in
  (exists fuel k, getOutput (view (fun k => k) result) fuel 0 = Some (k, "2" ++ nl)) /\
  java_exceptions (thread result) = [].
Proof.
  cbv zeta.
  destruct (ClientProps.scenario_print_sum (fun k => k)
              (scripted "abc123"
                 [Chunk ("2" ++ nl); Chunk ("doneExecution:abc123" ++ nl)])
              eq_refl eq_refl (ex_intro _ 2 (le_n 2))) as (_ & G & _ & X & _).
  exact (conj G X).
Defined.

End Scenarios.

(** ** The listener on any script *)

Module ListenerMore.

Import Text Regex Bridge Scripts TextFacts RegexFacts ListenerFacts HandleFacts.

Lemma written_app (a b : list console_item) :
  written (a ++ b) = (written a ++ written b)%list.
Proof.
  induction a as [|[text|line|e] a IH]; simpl;
    [reflexivity | now rewrite IH | assumption | assumption].
Qed.

Lemma loop_mirror (incoming : list read) :
  forall (t : Thread) (console : list console_item) (base : string),
    join (written console) = base ++ execution_output t ->
    join (written (console_of (listen_loop t incoming console))) =
      base ++ execution_output (final (listen_loop t incoming console)).
Proof.
  induction incoming as [|r rest IH]; intros t console base H;
    cbn [listen_loop]; destruct (running t) eqn:Hr; cbn [console_of final];
    try assumption.
  destruct r as [output|msg].
  - unfold listen_body.
    destruct (negb (contains (done_marker t) output)); apply IH;
      cbn [execution_output]; [|assumption].
    rewrite written_app, join_app, H. cbn [written join].
    now rewrite append_nil_r, append_assoc.
  - cbn [console_of final]. rewrite written_app. cbn [written].
    now rewrite app_nil_r.
Qed.

Lemma loop_console (incoming : list read) :
  forall (t : Thread) (console : list console_item),
    exists mirrored tail,
      console_of (listen_loop t incoming console) =
        (console ++ map Written mirrored ++ tail)%list /\
      execution_output (final (listen_loop t incoming console)) =
        execution_output t ++ join mirrored /\
      match end_of (listen_loop t incoming console) with
      | Raised _ =>
          exists msg, tail = [PrintedExn (LibraryError msg)] /\ In (Broken msg) incoming
      | _ => tail = []
      end.
Proof.
  induction incoming as [|r rest IH]; intros t console; cbn [listen_loop].
  - exists [], []. destruct (running t); cbn;
      now rewrite app_nil_r, append_nil_r.
  - destruct (running t) eqn:Hr;
      [|exists [], []; cbn; now rewrite app_nil_r, append_nil_r].
    destruct r as [output|msg].
    + unfold listen_body.
      destruct (negb (contains (done_marker t) output)).
      * destruct (IH (mkThread (thread_id t) (running t) (execution_output t ++ output)
                        (scan_items (split_nl output) (java_exceptions t)))
                     (console ++ [Written output])%list)
          as (mirrored & tail & Hc & Ho & He).
        exists (output :: mirrored), tail. split; [|split].
        -- rewrite Hc. cbn [map app]. now rewrite <- app_assoc.
        -- rewrite Ho. cbn [execution_output join]. now rewrite append_assoc.
        -- destruct (end_of _); try exact He.
           destruct He as (msg & Ht & Hin). exists msg. split; [exact Ht | now right].
      * destruct (IH (mkThread (thread_id t) false (execution_output t)
                        (scan_items (split_nl output) (java_exceptions t)))
                     console)
          as (mirrored & tail & Hc & Ho & He).
        exists mirrored, tail. split; [exact Hc|]. split; [exact Ho|].
        destruct (end_of _); try exact He.
        destruct He as (msg & Ht & Hin). exists msg. split; [exact Ht | now right].
    + exists [], [PrintedExn (LibraryError msg)]. cbn [console_of final end_of map app join].
      split; [reflexivity|]. split; [now rewrite append_nil_r|].
      exists msg. split; [reflexivity | now left].
Qed.

(** X1.  Whatever the peer sends and however the listener ends, what it
    puts on the console after it starts is the chunks it has added to the
    output, written as they are and in order, so that put together they are
    the accumulated output; after them comes the printed exception of the
    library when, and only when, the listener ended on a failing read.
    Nothing else reaches the console. *)
Theorem console_mirrors_output (t : Thread) (incoming : list read)
    (console : list console_item) :
  let run := listenToSocketOutput t incoming console in
  (exists mirrored tail,
      console_of run = (console ++ map Written mirrored ++ tail)%list /\
      execution_output (final run) = join mirrored /\
      match end_of run with
      | Raised _ =>
          exists msg, tail = [PrintedExn (LibraryError msg)] /\ In (Broken msg) incoming
      | _ => tail = []
      end) /\
  join (written (console_of run)) =
    join (written console) ++ execution_output (final run).
Proof.
  cbv zeta. unfold listenToSocketOutput. split.
  - destruct (loop_console incoming
                (mkThread (thread_id t) (running t) "" (java_exceptions t)) console)
      as (mirrored & tail & Hc & Ho & He).
    exists mirrored, tail. split; [exact Hc|]. split; [exact Ho | exact He].
  - apply loop_mirror. cbn [execution_output]. now rewrite append_nil_r.
Qed.

Lemma captured_from_later (r : read) (incoming : list read) (lines : list string) :
  Forall (captured_from incoming) lines ->
  Forall (captured_from (r :: incoming)) lines.
Proof.
  apply Forall_impl. intros l (Hm & chunk & Hin & Hl).
  split; [assumption|]. exists chunk. split; [now right | assumption].
Qed.

Lemma loop_captures (incoming : list read) :
  forall (t : Thread) (console : list console_item),
    exists added,
      java_exceptions (final (listen_loop t incoming console)) =
        (java_exceptions t ++ added)%list /\
      Forall (captured_from incoming) added.
Proof.
  induction incoming as [|r rest IH]; intros t console;
    cbn [listen_loop]; destruct (running t) eqn:Hr; cbn [final];
    try (exists []; split; [now rewrite app_nil_r | constructor]).
  destruct r as [output|msg];
    [|cbn [final]; exists []; split; [now rewrite app_nil_r | constructor]].
  destruct (listen_body t output console) as [t' console'] eqn:Hb.
  assert (Ht : java_exceptions t' =
               (java_exceptions t ++ filter (re_match re_obj) (split_nl output))%list).
  { unfold listen_body in Hb.
    destruct (negb (contains (done_marker t) output)); inversion Hb; subst;
      cbn [java_exceptions]; apply scan_items_filter. }
  destruct (IH t' console') as (added & E & Hall).
  exists (filter (re_match re_obj) (split_nl output) ++ added)%list.
  split; [now rewrite E, Ht, app_assoc|].
  apply Forall_app. split.
  - apply Forall_forall. intros l Hl. apply filter_In in Hl as [Hin Hm].
    split; [assumption|]. exists output. split; [now left | assumption].
  - now apply captured_from_later.
Qed.

(** X2.  The listener only ever appends to the exception list, and what it
    appends are lines the pattern matches, each cut out of a chunk it was
    sent and holding no newline. *)
Theorem exceptions_only_grow (t : Thread) (incoming : list read)
    (console : list console_item) :
  exists added,
    java_exceptions (final (listenToSocketOutput t incoming console)) =
      (java_exceptions t ++ added)%list /\
    Forall (fun line =>
              re_match re_obj line = true /\
              all_chars is_dot line = true /\
              exists chunk, In (Chunk chunk) incoming /\ In line (split_nl chunk))
           added.
Proof.
  unfold listenToSocketOutput.
  destruct (loop_captures incoming
              (mkThread (thread_id t) (running t) "" (java_exceptions t)) console)
    as (added & E & Hall).
  exists added. split; [exact E|].
  revert Hall. apply Forall_impl. intros l (Hm & chunk & Hin & Hl).
  split; [assumption|]. split; [now apply (split_nl_no_newline chunk)|].
  now exists chunk.
Qed.

Lemma loop_returned_split (incoming : list read) :
  forall (id out : string) (excs : list string) (console : list console_item),
    end_of (listen_loop (mkThread id true out excs) incoming console) = Returned ->
    exists pre c post,
      incoming = (map Chunk pre ++ Chunk c :: post)%list /\
      Forall (fun x => contains ("doneExecution:" ++ id) x = false) pre /\
      contains ("doneExecution:" ++ id) c = true.
Proof.
  induction incoming as [|r rest IH]; intros id out excs console H;
    cbn [listen_loop running] in H; [discriminate|].
  destruct r as [output|msg]; [|discriminate].
  destruct (contains ("doneExecution:" ++ id) output) eqn:Hc.
  - exists [], output, rest. repeat split; [constructor | assumption].
  - rewrite listen_body_quiet in H by exact Hc.
    cbn [thread_id running execution_output java_exceptions] in H.
    destruct (IH _ _ _ _ H) as (pre & c & post & -> & Hpre & Hcc).
    exists (output :: pre), c, post. repeat split; [now constructor | assumption].
Qed.

(** X3.  A started listener returns exactly when the peer sends a chunk
    that holds its marker, with nothing but readable chunks before it. *)
Theorem listener_returns_iff (t : Thread) (incoming : list read)
    (console : list console_item) :
  running t = true ->
  (end_of (listenToSocketOutput t incoming console) = Returned <->
   exists pre c post,
     incoming = (map Chunk pre ++ Chunk c :: post)%list /\
     Forall (fun x => contains (done_marker t) x = false) pre /\
     contains (done_marker t) c = true).
Proof.
  intros Hr. split.
  - destruct t as [id r out excs]. cbn [running] in Hr. subst r.
    unfold listenToSocketOutput, done_marker. cbn [thread_id running java_exceptions].
    apply loop_returned_split.
  - intros (pre & c & post & -> & Hpre & Hc).
    now rewrite (ListenerProps.listen_run t pre c post console Hr Hpre Hc).
Qed.

(** X4.  A read that fails after chunks without the marker ends the
    listener at once with [CcsException]: what was accumulated stays in the
    thread object, the reads after the failing one are left alone, and the
    console got the chunks and then the exception of the library. *)
Theorem read_failure_keeps_output (t : Thread) (pre : list string)
    (msg : string) (post : list read) (console : list console_item) :
  running t = true ->
  Forall (fun x => contains (done_marker t) x = false) pre ->
  let run := listenToSocketOutput t (map Chunk pre ++ Broken msg :: post)%list console in
  end_of run = Raised (CcsException "Communication Problem with Socket") /\
  execution_output (final run) = join pre /\
  java_exceptions (final run) = scan_chunks pre (java_exceptions t) /\
  running (final run) = true /\
  unread run = post /\
  console_of run =
    (console ++ map Written pre ++ [PrintedExn (LibraryError msg)])%list.
Proof.
  intros Hr Hpre. cbv zeta.
  rewrite (ClientProps.listen_read_failure t pre msg post console Hr Hpre).
  repeat split.
Qed.

Lemma body_grows (t : Thread) (output : string) (console : list console_item) :
  let t' := fst (listen_body t output console) in
  thread_id t' = thread_id t /\
  (exists more, execution_output t' = execution_output t ++ more) /\
  (exists added, java_exceptions t' = (java_exceptions t ++ added)%list).
Proof.
  cbv zeta. unfold listen_body.
  destruct (negb (contains (done_marker t) output));
    cbn [fst thread_id execution_output java_exceptions];
    rewrite scan_items_filter; repeat split; eauto.
  exists "". now rewrite append_nil_r.
Qed.

Lemma upto_grows_from (n : nat) :
  forall (t : Thread) (incoming : list read),
    thread_id (listen_upto n t incoming) = thread_id t /\
    (exists more,
        execution_output (listen_upto n t incoming) = execution_output t ++ more) /\
    (exists added,
        java_exceptions (listen_upto n t incoming) =
          (java_exceptions t ++ added)%list).
Proof.
  assert (Hsame : forall t : Thread,
             thread_id t = thread_id t /\
             (exists more, execution_output t = execution_output t ++ more) /\
             (exists added, java_exceptions t = (java_exceptions t ++ added)%list)).
  { intros t. repeat split;
      [exists ""; now rewrite append_nil_r | exists []; now rewrite app_nil_r]. }
  induction n as [|n IH]; intros t incoming; cbn [listen_upto]; [apply Hsame|].
  destruct (running t); [|apply Hsame].
  destruct incoming as [|[output|msg] rest]; try apply Hsame.
  destruct (IH (fst (listen_body t output [])) rest) as (Hid & (more & Ho) & (added & He)).
  destruct (body_grows t output []) as (Hid' & (more' & Ho') & (added' & He')).
  split; [congruence|]. split.
  - exists (more' ++ more). now rewrite Ho, Ho', append_assoc.
  - exists (added' ++ added)%list. now rewrite He, He', app_assoc.
Qed.

(** X5.  What a look at the thread object finds never shrinks: between an
    earlier and a later look the id is the same, and the output and the
    exception list have only been added to at their ends. *)
Theorem thread_object_only_grows (n : nat) :
  forall (m : nat) (t : Thread) (incoming : list read),
    n <= m ->
    thread_id (listen_upto m t incoming) = thread_id (listen_upto n t incoming) /\
    (exists more,
        execution_output (listen_upto m t incoming) =
          execution_output (listen_upto n t incoming) ++ more) /\
    (exists added,
        java_exceptions (listen_upto m t incoming) =
          (java_exceptions (listen_upto n t incoming) ++ added)%list).
Proof.
  induction n as [|n IH]; intros m t incoming Hle.
  - cbn [listen_upto]. apply upto_grows_from.
  - destruct m as [|m]; [lia|]. cbn [listen_upto].
    destruct (running t);
      [|repeat split; [exists ""; now rewrite append_nil_r | exists []; now rewrite app_nil_r]].
    destruct incoming as [|[output|msg] rest];
      try (repeat split; [exists ""; now rewrite append_nil_r | exists []; now rewrite app_nil_r]).
    apply IH. lia.
Qed.

End ListenerMore.

(** ** Submissions and scripts *)

Module ScriptProps.

Import Text Regex Bridge Scripts TextFacts ListenerFacts HandleFacts HandleProps.

(** What a submission does to the world. *)
Lemma sendInterpreterServer_world (content : string) (w : World) :
  let id := uuid_source w (uuid_count w) in
  let rw := sendInterpreterServer content w in
  fst rw = mkResult (mkThread id true "" []) (incoming w) /\
  sent (snd rw) = (sent w ++ [framed id content])%list /\
  uuid_count (snd rw) = S (uuid_count w) /\
  uuid_source (snd rw) = uuid_source w /\
  dials (snd rw) = dials w /\
  incoming (snd rw) =
    unread (listenToSocketOutput (mkThread id true "" []) (incoming w) (stdout w)).
Proof. cbv zeta. repeat split. Qed.

Lemma syncExecution_ok (progress : nat -> nat) (patience : nat)
    (statement : string) (w : World) (result : CcsExecutionResult) (w' : World) :
  syncExecution progress patience statement w = Ok result w' ->
  result = fst (sendInterpreterServer statement w) /\
  w' = snd (sendInterpreterServer statement w) /\
  running (thread result) = false.
Proof.
  unfold syncExecution.
  destruct (sendInterpreterServer statement w) as [r w1]. cbn [fst snd].
  destruct (getOutput (view progress r) patience 0) as [[k out]|] eqn:E; [|discriminate].
  intros H; inversion H; subst.
  destruct (ClientProps.getOutput_result _ _ _ _ _ _ E) as (_ & Hr & _). auto.
Qed.

Lemma syncExecution_never_fails (progress : nat -> nat) (patience : nat)
    (statement : string) (w : World) (e : exn) (w' : World) :
  syncExecution progress patience statement w <> Fail e w'.
Proof.
  unfold syncExecution.
  destruct (sendInterpreterServer statement w) as [r w1].
  destruct (getOutput (view progress r) patience 0); discriminate.
Qed.

(** With a send that succeeds the methods are the ones above. *)
Lemma syncExecution_sending_none (progress : nat -> nat) (patience : nat)
    (statement : string) (w : World) :
  syncExecution_sending progress patience None statement w =
    syncExecution progress patience statement w.
Proof. reflexivity. Qed.

(** X6.  With a main thread that is not starved of looks: when the send of
    the frame succeeds, [syncExecution] returns (given patience enough)
    exactly when the reads left on the socket are readable chunks without the
    marker of the new submission followed by a chunk that holds it.  When the
    send raises, the exception of the library reaches the caller whatever
    the patience and whatever the peer sends: an id was drawn and the
    listener was started and has read, but no frame was sent. *)
Theorem syncExecution_returns_iff (progress : nat -> nat) (statement : string)
    (w : World) :
  (forall n, exists k, n <= progress k) ->
  let id := uuid_source w (uuid_count w) in
  let marker := "doneExecution:" ++ id in
  ((exists patience result w',
       syncExecution_sending progress patience None statement w = Ok result w') <->
   (exists pre c post,
       incoming w = (map Chunk pre ++ Chunk c :: post)%list /\
       Forall (fun x => contains marker x = false) pre /\
       contains marker c = true)) /\
  (forall msg patience,
      exists w',
        syncExecution_sending progress patience (Some msg) statement w =
          Fail (LibraryError msg) w' /\
        sent w' = sent w /\
        uuid_count w' = S (uuid_count w) /\
        incoming w' =
          unread (listenToSocketOutput (mkThread id true "" []) (incoming w) (stdout w))).
Proof.
  intros Hfair. cbv zeta. split; [|intros msg patience; eexists; repeat split].
  set (id := uuid_source w (uuid_count w)).
  set (t := mkThread id true "" []).
  assert (Hres : fst (sendInterpreterServer statement w) = mkResult t (incoming w))
    by reflexivity.
  split.
  - intros (patience & result & w' & H).
    rewrite syncExecution_sending_none in H. unfold syncExecution in H.
    destruct (sendInterpreterServer statement w) as [r w1]. cbn [fst] in Hres. subst r.
    destruct (getOutput (view progress (mkResult t (incoming w))) patience 0)
      as [[k out]|] eqn:E; [|discriminate].
    destruct (ClientProps.getOutput_result _ _ _ _ _ _ E) as (_ & _ & He).
    cbn [thread_start feed] in He.
    apply (ListenerMore.loop_returned_split (incoming w) id "" [] []). exact He.
  - intros (pre & c & post & Hin & Hpre & Hc).
    assert (He : end_of (listenToSocketOutput t (incoming w) []) = Returned).
    { rewrite Hin.
      now rewrite (ListenerProps.listen_run t pre c post [] eq_refl Hpre Hc). }
    destruct (ClientProps.getOutput_eventually progress (mkResult t (incoming w)) He
                (Hfair _)) as (fuel & k & E).
    exists fuel. rewrite syncExecution_sending_none. unfold syncExecution.
    destruct (sendInterpreterServer statement w) as [r w1]. cbn [fst] in Hres. subst r.
    rewrite E. eauto.
Qed.

Lemma frames_app (uuids : nat -> string) (a b : list string) :
  forall drawn,
    frames uuids drawn (a ++ b) =
      (frames uuids drawn a ++ frames uuids (drawn + List.length a) b)%list.
Proof.
  induction a as [|x a IH]; intros drawn; cbn [frames app List.length].
  - now rewrite Nat.add_0_r.
  - rewrite IH. now rewrite Nat.add_succ_r.
Qed.

(** The world after the setup commands have all run. *)
Lemma run_setup_commands_ok (progress : nat -> nat) (patience : nat)
    (verbose : bool) (setup_commands : list string) :
  forall w w',
    run_setup_commands progress patience verbose setup_commands w = Ok tt w' ->
    sent w' = (sent w ++ frames (uuid_source w) (uuid_count w) setup_commands)%list /\
    uuid_count w' = uuid_count w + List.length setup_commands /\
    uuid_source w' = uuid_source w /\
    dials w' = dials w.
Proof.
  induction setup_commands as [|command rest IH]; intros w w' H;
    cbn [run_setup_commands] in H.
  - inversion H; subst. cbn. now rewrite app_nil_r, Nat.add_0_r.
  - set (w0 := if verbose then print (Printed command) w else w) in *.
    assert (H0 : sent w0 = sent w /\ uuid_count w0 = uuid_count w /\
                 uuid_source w0 = uuid_source w /\ dials w0 = dials w)
      by (unfold w0; destruct verbose; repeat split).
    destruct H0 as (Hs0 & Hc0 & Hu0 & Hd0).
    destruct (syncExecution progress patience command w0) as [r w1|e w1|] eqn:E;
      try discriminate.
    destruct (syncExecution_ok _ _ _ _ _ _ E) as (_ & -> & _).
    destruct (sendInterpreterServer_world command w0) as (_ & Hs & Hc & Hu & Hd & _).
    destruct (IH _ _ H) as (Hs' & Hc' & Hu' & Hd').
    rewrite Hs', Hc', Hu', Hd', Hs, Hc, Hu, Hd, Hs0, Hc0, Hu0, Hd0.
    cbn [frames List.length]. rewrite <- app_assoc. cbn [app].
    repeat split. lia.
Qed.

Lemma run_setup_commands_never_fails (progress : nat -> nat) (patience : nat)
    (verbose : bool) (setup_commands : list string) :
  forall w e w',
    run_setup_commands progress patience verbose setup_commands w <> Fail e w'.
Proof.
  induction setup_commands as [|command rest IH]; intros w e w';
    cbn [run_setup_commands]; [discriminate|].
  destruct (syncExecution _ _ _ _) as [r w1|e1 w1|] eqn:E; try discriminate.
  - apply IH.
  - exfalso. exact (syncExecution_never_fails _ _ _ _ _ _ E).
Qed.

(** X7.  When [syncScriptExecution] returns, the file was readable and the
    socket got, in this order and nothing else, one frame for each setup
    command and then the frame of the file content, each under the next id
    drawn; the handle returned is that of the file content, its listener has
    finished, and no connection was made. *)
Theorem syncScriptExecution_sends_in_order (progress : nat -> nat)
    (patience : nat) (fs : string -> file) (filename : string)
    (setup_commands : list string) (verbose : bool) (w : World)
    (result : CcsExecutionResult) (w' : World) :
  syncScriptExecution progress patience fs filename setup_commands verbose w =
    Ok result w' ->
  exists fileContent,
    fs filename = Readable fileContent /\
    sent w' =
      (sent w ++ frames (uuid_source w) (uuid_count w)
                        (setup_commands ++ [fileContent]))%list /\
    uuid_count w' = uuid_count w + List.length setup_commands + 1 /\
    thread_id (thread result) =
      uuid_source w (uuid_count w + List.length setup_commands) /\
    running (thread result) = false /\
    dials w' = dials w.
Proof.
  unfold syncScriptExecution.
  set (w0 := if verbose && _ then _ else w).
  assert (H0 : sent w0 = sent w /\ uuid_count w0 = uuid_count w /\
               uuid_source w0 = uuid_source w /\ dials w0 = dials w)
    by (unfold w0; destruct (verbose && _); repeat split).
  destruct H0 as (Hs0 & Hc0 & Hu0 & Hd0).
  destruct (run_setup_commands progress patience verbose setup_commands w0)
    as [[] w1|e w1|] eqn:E; try discriminate.
  destruct (run_setup_commands_ok _ _ _ _ _ _ E) as (Hs1 & Hc1 & Hu1 & Hd1).
  set (w2 := if verbose then _ else w1).
  assert (H2 : sent w2 = sent w1 /\ uuid_count w2 = uuid_count w1 /\
               uuid_source w2 = uuid_source w1 /\ dials w2 = dials w1)
    by (unfold w2; destruct verbose; repeat split).
  destruct H2 as (Hs2 & Hc2 & Hu2 & Hd2).
  destruct (fs filename) as [fileContent|msg]; [|discriminate].
  intros H. exists fileContent. split; [reflexivity|].
  assert (Hsync : syncExecution progress patience fileContent w2 = Ok result w')
    by exact H.
  destruct (syncExecution_ok _ _ _ _ _ _ Hsync) as (-> & -> & Hr).
  destruct (sendInterpreterServer_world fileContent w2) as (Hf & Hs & Hc & Hu & Hd & _).
  rewrite Hs, Hc, Hd, Hs2, Hc2, Hu2, Hd2, Hs1, Hc1, Hu1, Hd1, Hs0, Hc0, Hu0, Hd0.
  rewrite frames_app. cbn [frames]. rewrite <- app_assoc.
  repeat split; try lia; try assumption.
  assert (Hid : thread_id (thread (fst (sendInterpreterServer fileContent w2))) =
                uuid_source w2 (uuid_count w2)).
  { rewrite Hf. unfold thread, listenToSocketOutput.
    cbn [thread_start feed thread_id running java_exceptions].
    destruct (ListenerMore.upto_grows_from (List.length (incoming w2))
                (mkThread (uuid_source w2 (uuid_count w2)) true "" []) (incoming w2))
      as (Hid & _).
    rewrite (listen_upto_final (incoming w2) _ _ [] (le_n _)) in Hid. exact Hid. }
  rewrite Hid. congruence.
Qed.

(** X8.  A script file that cannot be read.  [aSyncScriptExecution] raises
    what [open] raised and leaves the world as it was.  [syncScriptExecution]
    opens the file only after the setup commands: it never returns a handle,
    and when it raises, it raises what [open] raised, with a frame for every
    setup command already sent. *)
Theorem unreadable_script (progress : nat -> nat) (patience : nat)
    (fs : string -> file) (filename msg : string)
    (setup_commands : list string) (verbose : bool) (w : World) :
  fs filename = Unreadable msg ->
  aSyncScriptExecution fs filename w = Fail (LibraryError msg) w /\
  (forall result w',
      syncScriptExecution progress patience fs filename setup_commands verbose w
        <> Ok result w') /\
  (forall e w',
      syncScriptExecution progress patience fs filename setup_commands verbose w
        = Fail e w' ->
      e = LibraryError msg /\
      sent w' =
        (sent w ++ frames (uuid_source w) (uuid_count w) setup_commands)%list).
Proof.
  intros Hfs. split; [unfold aSyncScriptExecution; now rewrite Hfs|].
  unfold syncScriptExecution. rewrite Hfs.
  set (w0 := if verbose && _ then _ else w).
  assert (H0 : sent w0 = sent w /\ uuid_count w0 = uuid_count w /\
               uuid_source w0 = uuid_source w)
    by (unfold w0; destruct (verbose && _); repeat split).
  destruct H0 as (Hs0 & Hc0 & Hu0).
  destruct (run_setup_commands progress patience verbose setup_commands w0)
    as [[] w1|e1 w1|] eqn:E.
  - destruct (run_setup_commands_ok _ _ _ _ _ _ E) as (Hs1 & _).
    split; [discriminate|].
    intros e w' H. inversion H; subst. split; [reflexivity|].
    destruct verbose; cbn [print with_stdout sent]; rewrite Hs1; congruence.
  - exfalso. exact (run_setup_commands_never_fails _ _ _ _ _ _ _ E).
  - split; discriminate.
Qed.

End ScriptProps.

(** ** What [verbose] changes, and the name of the session *)

Module VerboseProps.

Import Text Regex Bridge Scripts TextFacts RegexFacts ListenerFacts HandleFacts.

(** The console has no part in what the listener does to the thread object
    and to the socket. *)
Lemma listen_loop_console (incoming : list read) :
  forall (t : Thread) (c1 c2 : list console_item),
    end_of (listen_loop t incoming c1) = end_of (listen_loop t incoming c2) /\
    final (listen_loop t incoming c1) = final (listen_loop t incoming c2) /\
    unread (listen_loop t incoming c1) = unread (listen_loop t incoming c2).
Proof.
  induction incoming as [|r rest IH]; intros t c1 c2; cbn [listen_loop];
    destruct (running t); try (repeat split; reflexivity).
  destruct r as [output|msg]; [|repeat split; reflexivity].
  pose proof (listen_body_thread t output c1 c2) as Ht.
  destruct (listen_body t output c1) as [t1 c1'].
  destruct (listen_body t output c2) as [t2 c2'].
  cbn [fst] in Ht. subst t2. apply IH.
Qed.

Lemma hush_print (item : console_item) (w : World) : hush (print item w) = hush w.
Proof. reflexivity. Qed.

Lemma send_hush (content : string) (w1 w2 : World) :
  hush w1 = hush w2 ->
  fst (sendInterpreterServer content w1) = fst (sendInterpreterServer content w2) /\
  hush (snd (sendInterpreterServer content w1)) =
    hush (snd (sendInterpreterServer content w2)).
Proof.
  destruct w1 as [h1 u1 d1 i1 s1 o1 us1 uc1], w2 as [h2 u2 d2 i2 s2 o2 us2 uc2].
  unfold hush, with_stdout. cbn. intros H. inversion H; subst.
  unfold sendInterpreterServer, uuid4, executePythonContent, listenToSocketOutput, hush.
  cbn [fst snd with_sent with_stdout with_incoming hostname unreachable dials
       incoming sent stdout uuid_source uuid_count new_thread thread_id running
       execution_output java_exceptions].
  split; [reflexivity|].
  destruct (listen_loop_console i2 (mkThread (us2 uc2) true "" []) o1 o2)
    as (_ & _ & Hu).
  now rewrite Hu.
Qed.

Lemma sync_hush (progress : nat -> nat) (patience : nat) (statement : string)
    (w1 w2 : World) :
  hush w1 = hush w2 ->
  hushed (syncExecution progress patience statement w1) =
    hushed (syncExecution progress patience statement w2).
Proof.
  intros H. unfold syncExecution.
  destruct (send_hush statement w1 w2 H) as [Hf Hw].
  destruct (sendInterpreterServer statement w1) as [r1 w1'].
  destruct (sendInterpreterServer statement w2) as [r2 w2'].
  cbn [fst snd] in *. subst r2.
  destruct (getOutput (view progress r1) patience 0); cbn [hushed]; congruence.
Qed.

Lemma setup_hush (progress : nat -> nat) (patience : nat)
    (setup_commands : list string) :
  forall (v1 v2 : bool) (w1 w2 : World),
    hush w1 = hush w2 ->
    hushed (run_setup_commands progress patience v1 setup_commands w1) =
      hushed (run_setup_commands progress patience v2 setup_commands w2).
Proof.
  induction setup_commands as [|command rest IH]; intros v1 v2 w1 w2 H;
    cbn [run_setup_commands].
  - cbn [hushed]. congruence.
  - set (a := if v1 then print (Printed command) w1 else w1).
    set (b := if v2 then print (Printed command) w2 else w2).
    assert (Hab : hush a = hush b).
    { unfold a, b. destruct v1, v2; rewrite ?hush_print; exact H. }
    pose proof (sync_hush progress patience command a b Hab) as Hs.
    destruct (syncExecution progress patience command a) as [r1 a'|e1 a'|];
      destruct (syncExecution progress patience command b) as [r2 b'|e2 b'|];
      cbn [hushed] in Hs; try discriminate.
    + apply IH. congruence.
    + cbn [hushed]. congruence.
    + reflexivity.
Qed.

(** X9.  [verbose] changes what is printed and nothing else: with it and
    without it [syncScriptExecution] ends the same way, with the same handle
    or the same exception, and leaves the same world but for the console. *)
Theorem verbose_only_prints (progress : nat -> nat) (patience : nat)
    (fs : string -> file) (filename : string) (setup_commands : list string)
    (w : World) :
  hushed (syncScriptExecution progress patience fs filename setup_commands true w) =
  hushed (syncScriptExecution progress patience fs filename setup_commands false w).
Proof.
  unfold syncScriptExecution.
  set (a := if true && _ then _ else w).
  set (b := if false && _ then _ else w).
  assert (Hab : hush a = hush b).
  { unfold a, b. cbn [andb]. destruct setup_commands; reflexivity. }
  pose proof (setup_hush progress patience setup_commands true false a b Hab) as Hs.
  destruct (run_setup_commands progress patience true setup_commands a)
    as [[] a'|e1 a'|];
    destruct (run_setup_commands progress patience false setup_commands b)
      as [[] b'|e2 b'|];
    cbn [hushed] in Hs; try discriminate.
  - assert (Hab' : hush (print (Printed ("Executing " ++ filename ++ "...")) a') = hush b')
      by (rewrite hush_print; congruence).
    destruct (fs filename) as [fileContent|msg]; [|cbn [hushed]; congruence].
    exact (sync_hush progress patience fileContent _ _ Hab').
  - cbn [hushed]. congruence.
  - reflexivity.
Qed.

Lemma remove_nl_clean (s : string) : all_chars is_dot (remove_nl s) = true.
Proof.
  induction s as [|c s IH]; cbn [remove_nl]; [reflexivity|].
  destruct (Ascii.eqb c newline) eqn:E; [assumption|].
  cbn [all_chars]. unfold is_dot at 1. now rewrite E.
Qed.

Lemma split_nl_line (a b : string) :
  all_chars is_dot a = true ->
  split_nl (a ++ String newline b) = a :: split_nl b.
Proof.
  induction a as [|c a IH]; intros H.
  - cbn [append split_nl]. now rewrite Ascii.eqb_refl.
  - cbn [all_chars] in H. apply andb_prop in H as [Hc Ha].
    cbn [append split_nl]. unfold is_dot in Hc.
    destruct (Ascii.eqb c newline); [discriminate|].
    now rewrite (IH Ha).
Qed.

Lemma all_chars_literal_app (p : ascii -> bool) (a b : string) :
  all_chars p a = true -> all_chars p b = true -> all_chars p (a ++ b) = true.
Proof. intros Ha Hb. now rewrite all_chars_app, Ha, Hb. Qed.

Lemma framed_lines (id content : string) :
  framed id content =
  ("startContent:" ++ id) ++
  String newline (content ++ String newline (("endContent:" ++ id) ++ String newline "")).
Proof. unfold framed, nl. rewrite !append_assoc. reflexivity. Qed.

(** X10.  A session name cannot add lines to the submission that initializes
    the session: when the constructor returns for a name, the one write it
    made is the frame of three lines that opens with [startContent:<id>],
    carries [initializeInterpreter] and the name with its newlines dropped on
    one line, and closes with [endContent:<id>]. *)
Theorem session_name_on_one_line (progress : nat -> nat) (patience : nat)
    (name : string) (host_arg : option string) (port_arg : nat) (w : World)
    (self : CcsJythonInterpreter) (w' : World) :
  init progress patience (Some name) host_arg port_arg w = Ok self w' ->
  let id := uuid_source w (uuid_count w) in
  all_chars is_dot id = true ->
  exists wire,
    sent w' = (sent w ++ [wire])%list /\
    split_nl wire =
      ["startContent:" ++ id; "initializeInterpreter " ++ remove_nl name;
       "endContent:" ++ id; ""].
Proof.
  intros H id Hid. unfold init in H.
  destruct (_socket_connection w) as [[] w1|eobj w1|] eqn:Hs; try discriminate.
  destruct (ClientProps.socket_connection_ok _ _ Hs)
    as (_ & Hsent & _ & Hus & Huc & _).
  match type of H with
  | context [syncExecution ?p ?f ?c ?x] =>
      destruct (syncExecution p f c x) as [r w2|e w2|] eqn:E; try discriminate;
      destruct (ScriptProps.syncExecution_ok _ _ _ _ _ _ E) as (_ & Hw & _);
      destruct (ScriptProps.sendInterpreterServer_world c x) as (_ & Hs2 & _)
  end.
  inversion H; subst w'. rewrite Hw.
  exists (framed id ("initializeInterpreter " ++ remove_nl name)). split.
  - rewrite Hs2. cbn [print with_stdout sent uuid_source uuid_count].
    unfold id. now rewrite Hsent, Hus, Huc.
  - rewrite framed_lines.
    rewrite split_nl_line
      by (apply all_chars_literal_app; [reflexivity | exact Hid]).
    rewrite split_nl_line
      by (apply all_chars_literal_app; [reflexivity | apply remove_nl_clean]).
    rewrite split_nl_line
      by (apply all_chars_literal_app; [reflexivity | exact Hid]).
    reflexivity.
Qed.

End VerboseProps.

(** ** The setup commands *)

Module CcsToolsProps.

Import Text CcsTools TextFacts.

Lemma od_get_set_same (key value : string) (d : OrderedDict) :
  od_get key (od_set key value d) = Some value.
Proof.
  induction d as [|[k v] d IH]; cbn [od_set od_get].
  - now rewrite String.eqb_refl.
  - destruct (String.eqb k key) eqn:E; cbn [od_get]; now rewrite E.
Qed.

Lemma od_get_set_other (key value k : string) (d : OrderedDict) :
  k <> key -> od_get k (od_set key value d) = od_get k d.
Proof.
  intros Hne. induction d as [|[k0 v0] d IH]; cbn [od_set od_get].
  - destruct (String.eqb_spec key k); [congruence | reflexivity].
  - destruct (String.eqb_spec k0 key) as [->|]; cbn [od_get].
    + destruct (String.eqb_spec key k); [congruence | reflexivity].
    + now rewrite IH.
Qed.

Lemma od_set_keys (key value : string) (d : OrderedDict) :
  map fst (od_set key value d) =
  match od_get key d with
  | Some _ => map fst d
  | None => (map fst d ++ [key])%list
  end.
Proof.
  induction d as [|[k v] d IH]; cbn [od_set od_get map app fst]; [reflexivity|].
  destruct (String.eqb_spec k key) as [->|]; cbn [map fst]; [reflexivity|].
  rewrite IH. now destruct (od_get key d).
Qed.

Lemma od_get_none_keys (key : string) (d : OrderedDict) :
  od_get key d = None -> ~ In key (map fst d).
Proof.
  induction d as [|[k v] d IH]; cbn [od_get map fst]; intros H [].
  - subst. now rewrite String.eqb_refl in H.
  - destruct (String.eqb k key); [discriminate | now apply IH].
Qed.

(** X11.  [self[key] = value] stores the value between single quotes under
    the key and leaves every other entry as it was.  A key that was there
    keeps its place, a new key goes last; so keys that were pairwise
    different stay so, and the commands built from the entries assign each
    variable once. *)
Theorem setitem_then_getitem (key value : string) (self : CcsSetup) :
  let self' := setitem key value self in
  od_get key (items self') = Some (String quote (value ++ String quote "")) /\
  (forall k, k <> key -> od_get k (items self') = od_get k (items self)) /\
  map fst (items self') =
    match od_get key (items self) with
    | Some _ => map fst (items self)
    | None => (map fst (items self) ++ [key])%list
    end /\
  (NoDup (map fst (items self)) -> NoDup (map fst (items self'))) /\
  commands self' = commands self.
Proof.
  cbv zeta. unfold setitem. cbn [items commands].
  split; [apply od_get_set_same|].
  split; [intros k Hk; now apply od_get_set_other|].
  split; [apply od_set_keys|].
  split; [|reflexivity].
  intros Hnd. rewrite od_set_keys.
  destruct (od_get key (items self)) eqn:E; [assumption|].
  apply NoDup_app; [assumption | repeat constructor; intros [] |].
  intros a Ha [<-|[]]. exact (od_get_none_keys _ _ E Ha).
Qed.

Lemma rstrip_snoc (c : ascii) (s : string) :
  rstrip c (s ++ String c "") = rstrip c s.
Proof.
  induction s as [|a s IH]; cbn [append rstrip].
  - now rewrite Ascii.eqb_refl.
  - now rewrite IH.
Qed.

Lemma strip_snoc (c : ascii) (v : string) :
  rstrip c (lstrip c (v ++ String c "")) = rstrip c (lstrip c v).
Proof.
  induction v as [|a v IH]; cbn [append lstrip].
  - now rewrite Ascii.eqb_refl.
  - destruct (Ascii.eqb a c); [exact IH|].
    change (String a (v ++ String c "")) with (String a v ++ String c "").
    apply rstrip_snoc.
Qed.

Lemma rstrip_id (c : ascii) (v : string) :
  (forall r, v <> r ++ String c "") -> rstrip c v = v.
Proof.
  induction v as [|a v IH]; intros H; cbn [rstrip]; [reflexivity|].
  rewrite IH.
  - destruct v as [|b v]; [|reflexivity].
    destruct (Ascii.eqb_spec a c) as [->|]; [|reflexivity].
    exfalso. now apply (H "").
  - intros r E. apply (H (String a r)). cbn [append]. now rewrite E.
Qed.

Lemma strip_quoted (value : string) :
  strip_quotes (String quote (value ++ String quote "")) = strip_quotes value /\
  ((forall r, value <> String quote r) ->
   (forall r, value <> r ++ String quote "") ->
   strip_quotes (String quote (value ++ String quote "")) = value).
Proof.
  assert (E : strip_quotes (String quote (value ++ String quote "")) =
              strip_quotes value).
  { unfold strip_quotes. cbn [lstrip]. rewrite Ascii.eqb_refl. apply strip_snoc. }
  split; [exact E|].
  intros Hl Hr. rewrite E. unfold strip_quotes.
  assert (L : lstrip quote value = value).
  { destruct value as [|a v]; [reflexivity|]. cbn [lstrip].
    destruct (Ascii.eqb_spec a quote) as [->|]; [|reflexivity].
    exfalso. now apply (Hl v). }
  rewrite L. now apply rstrip_id.
Qed.

(** X12.  After [self[key] = value], reading [self[key]] back and taking the
    single quotes off with [strip("'")] gives what stripping the value
    itself gives; it gives the value back when the value neither begins nor
    ends with a single quote.  Entries set with [set_item] are read back as
    they were given. *)
Theorem strip_quotes_of_stored (key value : string) (self : CcsSetup) :
  (exists stored,
      od_get key (items (setitem key value self)) = Some stored /\
      strip_quotes stored = strip_quotes value /\
      ((forall r, value <> String quote r) ->
       (forall r, value <> r ++ String quote "") ->
       strip_quotes stored = value)) /\
  od_get key (items (set_item key value self)) = Some value.
Proof.
  split.
  - exists (String quote (value ++ String quote "")).
    split; [unfold setitem; cbn [items]; apply od_get_set_same|].
    apply strip_quoted.
  - unfold set_item. cbn [items]. apply od_get_set_same.
Qed.

Lemma insert_front (f : string -> string) (l : list string) :
  forall init,
    fold_left (fun acc item => f item :: acc) l init = (rev (map f l) ++ init)%list.
Proof.
  induction l as [|x l IH]; intros init; cbn [fold_left map rev app]; [reflexivity|].
  rewrite IH, <- app_assoc. reflexivity.
Qed.

Lemma call_fst (pythonDir : string) (mapping : option OrderedDict)
    (self : CcsSetup) :
  fst (call pythonDir mapping self) =
    ("import sys" :: path_command pythonDir ::
     rev (map path_command (sys_paths self)) ++
     commands self ++
     map (fun kv => (fst kv ++ " = " ++ snd kv)%string) (items self) ++
     set_ccs_subsystems mapping)%list.
Proof.
  unfold call. cbn [fst]. rewrite insert_front.
  cbn [app]. now rewrite <- !app_assoc.
Qed.

(** X13.  The list [setup()] returns: [import sys], the path of the package,
    the paths asked for in the reverse of the order they were given in, the
    commands that were there before, one assignment for each entry in the
    order of the keys, and the subsystem mapping.  The list is left in the
    object. *)
Theorem call_commands (pythonDir : string) (mapping : option OrderedDict)
    (self : CcsSetup) :
  fst (call pythonDir mapping self) =
    ("import sys" :: path_command pythonDir ::
     rev (map path_command (sys_paths self)) ++
     commands self ++
     map (fun kv => (fst kv ++ " = " ++ snd kv)%string) (items self) ++
     set_ccs_subsystems mapping)%list /\
  commands (snd (call pythonDir mapping self)) = fst (call pythonDir mapping self) /\
  items (snd (call pythonDir mapping self)) = items self /\
  sys_paths (snd (call pythonDir mapping self)) = sys_paths self.
Proof.
  split; [apply call_fst | repeat split].
Qed.

(** X14.  Calling [setup()] again does not give the same list: the second
    list is the first one with the import and the path commands put before
    it once more and the assignments and the mapping put after it once
    more. *)
Theorem call_twice (pythonDir : string) (mapping : option OrderedDict)
    (self : CcsSetup) :
  let first := call pythonDir mapping self in
  fst (call pythonDir mapping (snd first)) =
    ("import sys" :: path_command pythonDir ::
     rev (map path_command (sys_paths self)) ++
     fst first ++
     map (fun kv => (fst kv ++ " = " ++ snd kv)%string) (items self) ++
     set_ccs_subsystems mapping)%list /\
  List.length (fst first) < List.length (fst (call pythonDir mapping (snd first))).
Proof.
  cbv zeta.
  assert (E : fst (call pythonDir mapping (snd (call pythonDir mapping self))) =
    ("import sys" :: path_command pythonDir ::
     rev (map path_command (sys_paths self)) ++
     fst (call pythonDir mapping self) ++
     map (fun kv => (fst kv ++ " = " ++ snd kv)%string) (items self) ++
     set_ccs_subsystems mapping)%list).
  { rewrite (call_fst pythonDir mapping (snd (call pythonDir mapping self))).
    reflexivity. }
  split; [exact E|].
  rewrite E. cbn [List.length]. rewrite !length_app. lia.
Qed.

End CcsToolsProps.

(** ** More scenarios *)

Module MoreScenarios.

Import Text Regex Bridge Scripts CcsTools.

Lemma listener_returns_iff_witness :
  let t := mkThread "abc123" true "" [] in
  end_of (listenToSocketOutput t
            [Chunk ("2" ++ nl); Chunk ("doneExecution:abc123" ++ nl)] []) = Returned.
Proof.
  cbv zeta.
  apply (proj2 (ListenerMore.listener_returns_iff
                  (mkThread "abc123" true "" [])
                  [Chunk ("2" ++ nl); Chunk ("doneExecution:abc123" ++ nl)] []
                  eq_refl)).
  exists ["2" ++ nl], ("doneExecution:abc123" ++ nl), [].
  split; [reflexivity|]. split; [repeat constructor | reflexivity].
Defined.

Lemma read_failure_keeps_output_witness :
  let t := mkThread "abc123" true "" [] in
  let pre := ["partial" ++ nl] in
  let run := listenToSocketOutput t
               (map Chunk pre ++ Broken "Connection reset by peer" :: [Chunk "late"])%list
               [] in
  end_of run = Raised (CcsException "Communication Problem with Socket") /\
  execution_output (final run) = "partial" ++ nl /\
  java_exceptions (final run) = [] /\
  running (final run) = true /\
  unread run = [Chunk "late"] /\
  console_of run =
    [Written ("partial" ++ nl); PrintedExn (LibraryError "Connection reset by peer")].
Proof.
  cbv zeta.
  apply (ListenerMore.read_failure_keeps_output
           (mkThread "abc123" true "" []) ["partial" ++ nl]
           "Connection reset by peer" [Chunk "late"] []).
  - reflexivity.
  - repeat constructor.
Defined.

Lemma thread_object_only_grows_witness :
  let t := mkThread "abc123" true "" [] in
  let incoming := [Chunk "a"; Chunk "b"; Chunk "doneExecution:abc123"] in
  exists more,
    execution_output (listen_upto 2 t incoming) =
      execution_output (listen_upto 1 t incoming) ++ more.
Proof.
  cbv zeta.
  apply (ListenerMore.thread_object_only_grows 1 2
           (mkThread "abc123" true "" [])
           [Chunk "a"; Chunk "b"; Chunk "doneExecution:abc123"]).
  lia.
Defined.

Lemma syncExecution_returns_iff_witness :
  let w := scripted "abc123"
             [Chunk ("2" ++ nl); Chunk ("doneExecution:abc123" ++ nl)] in
  (exists patience result w',
      syncExecution_sending (fun k => k) patience None "print(1+1)" w = Ok result w') /\
  (exists w',
      syncExecution_sending (fun k => k) 3 (Some "Broken pipe") "print(1+1)" w =
        Fail (LibraryError "Broken pipe") w' /\
      sent w' = [] /\ incoming w' = []).
Proof.
  cbv zeta.
  destruct (ScriptProps.syncExecution_returns_iff (fun k => k) "print(1+1)"
              (scripted "abc123"
                 [Chunk ("2" ++ nl); Chunk ("doneExecution:abc123" ++ nl)])
              (fun n => ex_intro _ n (le_n n))) as [A B].
  split.
  - apply (proj2 A).
    exists ["2" ++ nl], ("doneExecution:abc123" ++ nl), [].
    split; [reflexivity|]. split; [repeat constructor | reflexivity].
  - destruct (B "Broken pipe" 3) as (w' & E & Hs & _ & Hi).
    exists w'. split; [exact E|]. split; [exact Hs | exact Hi].
Defined.

(** A peer that acknowledges two submissions, drawn under the ids [0] and
    [1]. *)
Lemma syncScriptExecution_sends_in_order_witness :
  let w := mkWorld "localhost" None 0
             [Chunk ("doneExecution:0" ++ nl); Chunk ("4" ++ nl);
              Chunk ("doneExecution:1" ++ nl)]
             [] [] decimal 0 in
  let fs := fun _ : string => Readable "print(2+2)" in
  exists result w',
    syncScriptExecution (fun k => k) 5 fs "acq.py" ["import sys"] false w =
      Ok result w' /\
    sent w' = [framed "0" "import sys"; framed "1" "print(2+2)"] /\
    thread_id (thread result) = "1" /\
    running (thread result) = false.
Proof.
  cbv zeta.
  destruct (syncScriptExecution (fun k => k) 5 (fun _ : string => Readable "print(2+2)")
              "acq.py" ["import sys"] false
              (mkWorld "localhost" None 0
                 [Chunk ("doneExecution:0" ++ nl); Chunk ("4" ++ nl);
                  Chunk ("doneExecution:1" ++ nl)]
                 [] [] decimal 0)) as [result w'|e w'|] eqn:H;
    [|exfalso; vm_compute in H; discriminate H
     |exfalso; vm_compute in H; discriminate H].
  exists result, w'. split; [reflexivity|].
  destruct (ScriptProps.syncScriptExecution_sends_in_order _ _ _ _ _ _ _ _ _ H)
    as (content & Hfs & Hsent & _ & Hid & Hr & _).
  inversion Hfs; subst content.
  exact (conj Hsent (conj Hid Hr)).
Defined.

Lemma unreadable_script_witness :
  let w := scripted "abc123" [Chunk ("doneExecution:abc123" ++ nl)] in
  let fs := fun _ : string => Unreadable "No such file or directory" in
  aSyncScriptExecution fs "acq.py" w =
    Fail (LibraryError "No such file or directory") w /\
  forall e w',
    syncScriptExecution (fun k => k) 3 fs "acq.py" ["import sys"] true w = Fail e w' ->
    e = LibraryError "No such file or directory" /\
    sent w' = [framed "abc123" "import sys"].
Proof.
  cbv zeta.
  destruct (ScriptProps.unreadable_script (fun k => k) 3
              (fun _ : string => Unreadable "No such file or directory")
              "acq.py" "No such file or directory" ["import sys"] true
              (scripted "abc123" [Chunk ("doneExecution:abc123" ++ nl)]) eq_refl)
    as (A & _ & C).
  split; [exact A | exact C].
Defined.

Lemma session_name_on_one_line_witness :
  let w := scripted "abc123"
             [Chunk "hello"; Chunk ("doneExecution:abc123" ++ nl)] in
  let name := "ts" ++ nl ++ "import os" in
  exists self w' wire,
    init (fun k => k) 3 (Some name) None 4444 w = Ok self w' /\
    sent w' = [wire] /\
    split_nl wire =
      ["startContent:abc123"; "initializeInterpreter tsimport os";
       "endContent:abc123"; ""].
Proof.
  cbv zeta.
  destruct (init (fun k => k) 3 (Some ("ts" ++ nl ++ "import os")) None 4444
              (scripted "abc123"
                 [Chunk "hello"; Chunk ("doneExecution:abc123" ++ nl)]))
    as [self w'|e w'|] eqn:H;
    [|exfalso; vm_compute in H; discriminate H
     |exfalso; vm_compute in H; discriminate H].
  destruct (VerboseProps.session_name_on_one_line _ _ _ _ _ _ _ _ H eq_refl)
    as (wire & A & B).
  exists self, w', wire. split; [reflexivity|]. split; [exact A | exact B].
Defined.

Lemma setitem_then_getitem_witness :
  let self := mkSetup [("tsCWD", "'/tmp'")] [] [] in
  NoDup (map fst (items (setitem "labname" "SLAC" self))) /\
  od_get "labname" (items (setitem "labname" "SLAC" self)) = Some "'SLAC'".
Proof.
  cbv zeta.
  destruct (CcsToolsProps.setitem_then_getitem "labname" "SLAC"
              (mkSetup [("tsCWD", "'/tmp'")] [] [])) as (A & _ & _ & D & _).
  split; [|exact A].
  apply D. repeat constructor. intros [].
Defined.

Lemma strip_quotes_of_stored_witness :
  let self := mkSetup [("labname", "'SLAC'")] [] [] in
  exists stored,
    od_get "tsCWD" (items (setitem "tsCWD" "ab" self)) = Some stored /\
    strip_quotes stored = "ab".
Proof.
  cbv zeta.
  destruct (proj1 (CcsToolsProps.strip_quotes_of_stored "tsCWD" "ab"
                     (mkSetup [("labname", "'SLAC'")] [] [])))
    as (stored & Hget & _ & Hback).
  exists stored. split; [exact Hget|].
  apply Hback.
  - intros r E. discriminate E.
  - intros r E.
    do 2 (destruct r as [|? r]; cbn in E; [discriminate E | injection E as _ E]).
    destruct r; discriminate E.
Defined.

End MoreScenarios.
